(** * The inventory ledger and its read cache

    A shallow embedding of [inventory-api/cache_manager.py] and
    [inventory-api/inventory_manager.py].

    Conventions of the embedding.
    - Python [int] is [Z]; Python [str] is [string].
    - A Python [dict] whose iteration order is observed (the catalog,
      the per-order item map) is an association list in insertion order;
      a [dict] that is only looked up, inserted into and deleted from
      (the cache, its expiry table, the reservations) is a [gmap].
    - A [datetime] is the number of microseconds since the epoch, a [Z];
      [timedelta(seconds=ttl)] is [ttl * 1000000].  Every reading of the
      clock made by an operation is an explicit argument of its model.
    - A Python [float] is a binary64 number, a [spec_float] computed
      with the operations of [SpecFloat] at precision 53.
    - A raised [KeyError] or [OverflowError] is the outcome [Raise]; the
      state returned next to it is the state as mutated up to the point
      of the raise.
    - The locks are re-entrant and held for the whole of each operation,
      so each operation is a function from state to state. *)

From Stdlib Require Import ZArith QArith Qround Qabs Lia Lqa List Sorted Permutation.
From Stdlib Require Import SpecFloat.
From stdpp Require Import base option list gmap strings pretty.

Local Open Scope Z_scope.

(** ** Insertion-ordered dictionaries *)

Section OrderedDict.
Context {K V : Type} `{EqDecision K}.

(** [d[k]], [None] standing for the [KeyError]. *)
Fixpoint dict_get (k : K) (d : list (K * V)) : option V :=
  match d with
  | [] => None
  | (k', v) :: d' => if decide (k = k') then Some v else dict_get k d'
  end.

(** [d[k] = v]: the value is replaced in place when [k] is present and
    the pair is appended otherwise. *)
Fixpoint dict_set (k : K) (v : V) (d : list (K * V)) : list (K * V) :=
  match d with
  | [] => [(k, v)]
  | (k', v') :: d' =>
      if decide (k = k') then (k', v) :: d' else (k', v') :: dict_set k v d'
  end.
End OrderedDict.

(** ** Outcomes of a call *)

Inductive exn : Type :=
| KeyError (key : Z)
| OverflowError.

Inductive outcome (A : Type) : Type :=
| Return (a : A)
| Raise (e : exn).
Arguments Return {A} a.
Arguments Raise {A} e.

(** ** [sorted(l, key=...)]

    Python's [sorted] is stable, and the stable sort of a list on a key
    is unique; it is written here as an insertion sort that puts an
    element before the first later element whose key is not smaller. *)

Section SortedBy.
Context {A : Type} (key : A → Z).

Fixpoint insert_by (x : A) (l : list A) : list A :=
  match l with
  | [] => [x]
  | y :: l' => if key x <=? key y then x :: y :: l' else y :: insert_by x l'
  end.

Definition sorted (l : list A) : list A := foldr insert_by [] l.
End SortedBy.

(** ** cache_manager.py *)

Module CacheManager.
Section WithValue.
Context {V : Type}.

Record t : Type := Build {
  cache : gmap string V;
  expiry : gmap string Z;
  hits : Z;
  misses : Z
}.

(** [__init__] *)
Definition init : t :=
  {| cache := ∅; expiry := ∅; hits := 0; misses := 0 |}.

(** [get(key)], with [now] the value of [datetime.now()] (read only when
    the key is in both tables). *)
Definition get (now : Z) (key : string) (c : t) : option V * t :=
  match cache c !! key with
  | Some v =>
      match expiry c !! key with
      | Some e =>
          if now >? e then
            (None,
             {| cache := base.delete key (cache c);
                expiry := base.delete key (expiry c);
                hits := hits c;
                misses := misses c + 1 |})
          else
            (Some v,
             {| cache := cache c; expiry := expiry c;
                hits := hits c + 1; misses := misses c |})
      | None =>
          (Some v,
           {| cache := cache c; expiry := expiry c;
              hits := hits c + 1; misses := misses c |})
      end
  | None =>
      (None,
       {| cache := cache c; expiry := expiry c;
          hits := hits c; misses := misses c + 1 |})
  end.

(** [datetime.min] and [datetime.max]: the first microsecond of year 1
    and the last of year 9999. *)
Definition datetime_min : Z := -62135596800000000.
Definition datetime_max : Z := 253402300799999999.

(** Whether [now + timedelta(seconds=ttl)] has a value: the
    [timedelta] needs a number of days of magnitude at most 999999999,
    the sum a year between 1 and 9999; otherwise the expression raises
    [OverflowError]. *)
Definition expiry_in_range (now ttl : Z) : bool :=
  (-999999999 <=? ttl / 86400) && (ttl / 86400 <=? 999999999) &&
  (datetime_min <=? now + ttl * 1000000) &&
  (now + ttl * 1000000 <=? datetime_max).

(** [set(key, value, ttl)], with [now] the value of [datetime.now()].
    The value is stored first; the expiry time is computed and stored
    next, and when computing it raises the value stays stored with the
    expiry time the key had, if any. *)
Definition set (now : Z) (key : string) (value : V) (ttl : Z) (c : t)
    : outcome unit * t :=
  if expiry_in_range now ttl then
    (Return (),
     {| cache := <[key := value]> (cache c);
        expiry := <[key := now + ttl * 1000000]> (expiry c);
        hits := hits c;
        misses := misses c |})
  else
    (Raise OverflowError,
     {| cache := <[key := value]> (cache c);
        expiry := expiry c;
        hits := hits c;
        misses := misses c |}).

(** [delete(key)] *)
Definition delete (key : string) (c : t) : t :=
  match cache c !! key with
  | Some _ =>
      {| cache := base.delete key (cache c);
         expiry := match expiry c !! key with
                   | Some _ => base.delete key (expiry c)
                   | None => expiry c
                   end;
         hits := hits c;
         misses := misses c |}
  | None => c
  end.

(** [clear()] *)
Definition clear (c : t) : t :=
  {| cache := ∅; expiry := ∅; hits := hits c; misses := misses c |}.
End WithValue.
Arguments t : clear implicits.

(** The integer nearest to [x], a tie going to the even one. *)
Definition round_half_even (x : Q) : Z :=
  let f := Qfloor x in
  match Qcompare (x - inject_Z f) (1 # 2) with
  | Lt => f
  | Gt => f + 1
  | Eq => if Z.even f then f else f + 1
  end.

(** A Python number: an [int] or a [float]. *)
Inductive number : Type :=
| PyInt (n : Z)
| PyFloat (x : spec_float).

(** [a / b] on two ints: the binary64 number nearest to the exact
    quotient, a tie going to the even mantissa.  A zero divisor raises
    in Python; [get_status] tests the divisor first, and the case is
    given the value NaN here. *)
Definition true_div (a b : Z) : spec_float :=
  match a, b with
  | 0, _ => S754_zero (b <? 0)
  | _, 0 => S754_nan
  | _, _ =>
      SFdiv 53 1024
        (S754_finite (a <? 0) (Z.to_pos (Z.abs a)) 0)
        (S754_finite (b <? 0) (Z.to_pos (Z.abs b)) 0)
  end.

(** [float(n)] *)
Definition float_of_int (n : Z) : spec_float := binary_normalize 53 1024 n 0 false.

(** [x * y] on two floats *)
Definition float_mul (x y : spec_float) : spec_float := SFmul 53 1024 x y.

(** The rational a finite float stands for. *)
Definition float_value (x : spec_float) : Q :=
  match x with
  | S754_finite s m e => (inject_Z (cond_Zopp s (Zpos m)) * 2 ^ e)%Q
  | _ => 0%Q
  end.

(** [round(x, 2)] on a float: the exact value of [x] is rounded to the
    nearest multiple of 1/100, a tie going to the even multiple, and
    the result is the binary64 number nearest to that multiple. *)
Definition round2 (x : spec_float) : spec_float :=
  match x with
  | S754_finite s _ _ =>
      let n := round_half_even (float_value x * 100) in
      if n =? 0 then S754_zero s else true_div n 100
  | _ => x
  end.

(** [round(x, 2)] on a number: an int is returned as it is. *)
Definition py_round2 (x : number) : number :=
  match x with
  | PyInt n => PyInt n
  | PyFloat x => PyFloat (round2 x)
  end.

(** The rational a number stands for. *)
Definition number_value (x : number) : Q :=
  match x with
  | PyInt n => inject_Z n
  | PyFloat x => float_value x
  end.

Record status : Type := Status {
  entries : nat;
  st_hits : Z;
  st_misses : Z;
  hit_rate : number
}.

(** [get_status()] *)
Definition get_status {V} (c : t V) : status :=
  let total_requests := hits c + misses c in
  let hit_rate :=
    if total_requests >? 0
    then PyFloat (float_mul (true_div (hits c) total_requests) (float_of_int 100))
    else PyInt 0 in
  {| entries := size (cache c);
     st_hits := hits c;
     st_misses := misses c;
     hit_rate := py_round2 hit_rate |}.

(** A call on the cache, with the clock reading it makes. *)
Inductive op (V : Type) : Type :=
| Get (now : Z) (key : string)
| Set_ (now : Z) (key : string) (value : V) (ttl : Z)
| Delete (key : string)
| Clear.
Arguments Get {V} now key.
Arguments Set_ {V} now key value ttl.
Arguments Delete {V} key.
Arguments Clear {V}.

Definition step {V} (c : t V) (o : op V) : t V :=
  match o with
  | Get now key => (get now key c).2
  | Set_ now key value ttl => (set now key value ttl c).2
  | Delete key => delete key c
  | Clear => clear c
  end.

Definition run {V} (os : list (op V)) (c : t V) : t V := foldl step c os.

(** Number of [get] calls in a sequence of calls. *)
Fixpoint gets {V} (os : list (op V)) : Z :=
  match os with
  | [] => 0
  | Get _ _ :: os' => 1 + gets os'
  | _ :: os' => gets os'
  end.


(** Number of [set] calls in a sequence of calls. *)
Fixpoint sets {V} (os : list (op V)) : nat :=
  match os with
  | [] => 0%nat
  | Set_ _ _ _ _ :: os' => S (sets os')
  | _ :: os' => sets os'
  end.

(** Every key of one table is a key of the other. *)
Definition tables_agree {V} (c : t V) : Prop :=
  ∀ key, is_Some (cache c !! key) ↔ is_Some (expiry c !! key).

(** The call is not a [set] whose expiry time cannot be computed. *)
Definition set_returns {V} (o : op V) : Prop :=
  match o with
  | Set_ now _ _ ttl => expiry_in_range now ttl = true
  | _ => True
  end.

(** The call is not a [set] of [key]. *)
Definition no_set {V} (key : string) (o : op V) : Prop :=
  match o with
  | Set_ _ k _ _ => k ≠ key
  | _ => True
  end.

(** The call leaves an entry of [key] that expires at [e] as it is: a
    call on another key, or a [get] of [key] made no later than [e]. *)
Definition keeps_entry {V} (key : string) (e : Z) (o : op V) : Prop :=
  match o with
  | Get now k => k ≠ key ∨ now ≤ e
  | Set_ _ k _ _ | Delete k => k ≠ key
  | Clear => False
  end.
End CacheManager.

(** ** inventory_manager.py *)

Module InventoryManager.

Record Item : Type := {
  item_id : Z;
  name : string;
  stock : Z;
  reserved : Z;
  sku : string
}.

(** The copy of an item that [get_item] returns and caches. *)
Record ItemView : Type := {
  v_item_id : Z;
  v_name : string;
  v_stock : Z;
  v_reserved : Z;
  v_sku : string;
  v_available : Z;
  v_last_checked : Z
}.

(** [{'items': ..., 'timestamp': ...}] *)
Record Reservation : Type := {
  r_items : list (Z * Z);
  r_timestamp : Z
}.

Record AdjustmentLogEntry : Type := {
  log_item_id : Z;
  log_old_stock : Z;
  log_new_stock : Z;
  log_adjustment : Z;
  log_reason : string;
  log_timestamp : Z
}.

Record LowStockEntry : Type := {
  ls_item_id : Z;
  ls_name : string;
  ls_sku : string;
  ls_stock : Z;
  ls_reserved : Z;
  ls_available : Z
}.

Record t : Type := Build {
  cache : CacheManager.t ItemView;
  inventory : list (Z * Item);
  reservations : gmap string Reservation;
  adjustment_log : list AdjustmentLogEntry
}.

Definition dquote : string := String (Ascii.ascii_of_nat 34) EmptyString.

(** [_initialize_inventory] *)
Definition initialize_inventory : list (Z * Item) :=
  [ (1001, {| item_id := 1001; name := "Laptop Pro 15" +:+ dquote; stock := 47; reserved := 3; sku := "LAP-PRO-15" |});
    (1002, {| item_id := 1002; name := "Wireless Mouse"; stock := 234; reserved := 12; sku := "MSE-WRL-01" |});
    (1003, {| item_id := 1003; name := "Mechanical Keyboard"; stock := 89; reserved := 5; sku := "KBD-MCH-01" |});
    (1004, {| item_id := 1004; name := "USB-C Hub"; stock := 156; reserved := 8; sku := "HUB-USC-01" |});
    (1005, {| item_id := 1005; name := "27" +:+ dquote +:+ " Monitor 4K"; stock := 23; reserved := 2; sku := "MON-27-4K" |});
    (1006, {| item_id := 1006; name := "Webcam HD Pro"; stock := 78; reserved := 6; sku := "WBC-HD-PRO" |});
    (1007, {| item_id := 1007; name := "Desk Lamp LED"; stock := 142; reserved := 4; sku := "LMP-DSK-LED" |});
    (1008, {| item_id := 1008; name := "Cable Organizer"; stock := 8; reserved := 1; sku := "ORG-CBL-01" |});
    (1009, {| item_id := 1009; name := "Laptop Stand"; stock := 5; reserved := 0; sku := "STD-LAP-01" |});
    (1010, {| item_id := 1010; name := "Headphones Noise Cancel"; stock := 112; reserved := 15; sku := "HDP-NC-01" |}) ].

(** [__init__(cache_manager)] *)
Definition init (cache_manager : CacheManager.t ItemView) : t :=
  {| cache := cache_manager;
     inventory := initialize_inventory;
     reservations := ∅;
     adjustment_log := [] |}.

(** The ledger built by [app.py] and by the test fixture. *)
Definition seeded : t := init CacheManager.init.

(** [f'item:{item_id}'] *)
Definition item_key (id : Z) : string := "item:" +:+ pretty id.

Definition with_cache (c : CacheManager.t ItemView) (s : t) : t :=
  {| cache := c; inventory := inventory s;
     reservations := reservations s; adjustment_log := adjustment_log s |}.

Definition with_reservations (rs : gmap string Reservation) (s : t) : t :=
  {| cache := cache s; inventory := inventory s;
     reservations := rs; adjustment_log := adjustment_log s |}.

(** [item['reserved'] += d] *)
Definition bump (d : Z) (it : Item) : Item :=
  {| item_id := item_id it; name := name it; stock := stock it;
     reserved := reserved it + d; sku := sku it |}.

(** [item['stock'] = n] *)
Definition restock (n : Z) (it : Item) : Item :=
  {| item_id := item_id it; name := name it; stock := n;
     reserved := reserved it; sku := sku it |}.

Inductive get_item_result : Type :=
| Found (item : ItemView)
| ItemNotFound (id : Z).

(** [get_item(item_id)].  [t_get] and [t_set] are the readings of
    [datetime.now()] inside [cache.get] and [cache.set], [t_utc] the one
    of [datetime.utcnow()].  A cached view is a non-empty dict, so the
    test [if cached] is the test that the cache returned a value.  When
    [cache.set] raises, the view is in the cache and the call raises. *)
Definition get_item (t_get t_utc t_set : Z) (id : Z) (s : t)
    : outcome get_item_result * t :=
  let '(cached, c) := CacheManager.get t_get (item_key id) (cache s) in
  match cached with
  | Some view => (Return (Found view), with_cache c s)
  | None =>
      match dict_get id (inventory s) with
      | None => (Return (ItemNotFound id), with_cache c s)
      | Some it =>
          let item :=
            {| v_item_id := item_id it; v_name := name it; v_stock := stock it;
               v_reserved := reserved it; v_sku := sku it;
               v_available := stock it - reserved it;
               v_last_checked := t_utc |} in
          match CacheManager.set t_set (item_key id) item 60 c with
          | (Return _, c') => (Return (Found item), with_cache c' s)
          | (Raise e, c') => (Raise e, with_cache c' s)
          end
      end
  end.

(** [check_availability(item_id, quantity)] *)
Definition check_availability (id quantity : Z) (s : t) : bool :=
  match dict_get id (inventory s) with
  | None => false
  | Some item =>
      let available := stock item - reserved item in
      available >=? quantity
  end.

Inductive reserve_result : Type :=
| DuplicateReservation (order_id : string)
| InsufficientInventory (id requested available : Z)
| Reserved (order_id : string) (items_reserved : nat) (reservation_details : list (Z * Z)).

(** The first loop of [reserve_items]: [None] when it runs to its end,
    otherwise what the [return] inside it produces.  The dict returned
    for a failing pair reads [self.inventory[item_id]] again. *)
Fixpoint validate (items : list (Z * Z)) (s : t) : option (outcome reserve_result) :=
  match items with
  | [] => None
  | (id, quantity) :: rest =>
      if negb (check_availability id quantity s) then
        Some match dict_get id (inventory s) with
             | Some item =>
                 Return (InsufficientInventory id quantity (stock item - reserved item))
             | None => Raise (KeyError id)
             end
      else validate rest s
  end.

(** The second loop of [reserve_items], threading [reservation_details]. *)
Fixpoint reserve_loop (items : list (Z * Z)) (reservation_details : list (Z * Z)) (s : t)
    : outcome (list (Z * Z)) * t :=
  match items with
  | [] => (Return reservation_details, s)
  | (id, quantity) :: rest =>
      match dict_get id (inventory s) with
      | None => (Raise (KeyError id), s)
      | Some item =>
          reserve_loop rest
            (dict_set id quantity reservation_details)
            {| cache := CacheManager.delete (item_key id) (cache s);
               inventory := dict_set id (bump quantity item) (inventory s);
               reservations := reservations s;
               adjustment_log := adjustment_log s |}
      end
  end.

(** [reserve_items(order_id, items)], with [t_utc] the reading of
    [datetime.utcnow()]. *)
Definition reserve_items (t_utc : Z) (order_id : string) (items : list (Z * Z)) (s : t)
    : outcome reserve_result * t :=
  match reservations s !! order_id with
  | Some _ => (Return (DuplicateReservation order_id), s)
  | None =>
      match validate items s with
      | Some r => (r, s)
      | None =>
          match reserve_loop items [] s with
          | (Raise e, s') => (Raise e, s')
          | (Return reservation_details, s') =>
              (Return (Reserved order_id (length reservation_details) reservation_details),
               with_reservations
                 (<[order_id := {| r_items := reservation_details; r_timestamp := t_utc |}]>
                    (reservations s')) s')
          end
      end
  end.

Inductive release_result : Type :=
| ReservationNotFound (order_id : string)
| Released (order_id : string) (items_released : nat).

(** The loop of [release_reservation]. *)
Fixpoint release_loop (items : list (Z * Z)) (s : t) : outcome unit * t :=
  match items with
  | [] => (Return (), s)
  | (id, quantity) :: rest =>
      match dict_get id (inventory s) with
      | None => (Raise (KeyError id), s)
      | Some item =>
          release_loop rest
            {| cache := CacheManager.delete (item_key id) (cache s);
               inventory := dict_set id (bump (- quantity) item) (inventory s);
               reservations := reservations s;
               adjustment_log := adjustment_log s |}
      end
  end.

(** [release_reservation(order_id)] *)
Definition release_reservation (order_id : string) (s : t) : outcome release_result * t :=
  match reservations s !! order_id with
  | None => (Return (ReservationNotFound order_id), s)
  | Some reservation =>
      match release_loop (r_items reservation) s with
      | (Raise e, s') => (Raise e, s')
      | (Return _, s') =>
          (Return (Released order_id (length (r_items reservation))),
           with_reservations (base.delete order_id (reservations s')) s')
      end
  end.

Inductive adjust_result : Type :=
| AdjustNotFound (id : Z)
| NegativeStockViolation (id current_stock adjustment : Z)
| Adjusted (id old_stock new_stock adjustment : Z) (reason : string).

(** [adjust_inventory(item_id, adjustment, reason)], with [t_utc] the
    reading of [datetime.utcnow()]. *)
Definition adjust_inventory (t_utc : Z) (id adjustment : Z) (reason : string) (s : t)
    : adjust_result * t :=
  match dict_get id (inventory s) with
  | None => (AdjustNotFound id, s)
  | Some item =>
      let old_stock := stock item in
      let new_stock := old_stock + adjustment in
      if new_stock <? 0 then
        (NegativeStockViolation id old_stock adjustment, s)
      else
        let log_entry :=
          {| log_item_id := id; log_old_stock := old_stock;
             log_new_stock := new_stock; log_adjustment := adjustment;
             log_reason := reason; log_timestamp := t_utc |} in
        (Adjusted id old_stock new_stock adjustment reason,
         {| cache := CacheManager.delete (item_key id) (cache s);
            inventory := dict_set id (restock new_stock item) (inventory s);
            reservations := reservations s;
            adjustment_log := adjustment_log s ++ [log_entry] |})
  end.

(** The loop of [get_low_stock_items]. *)
Fixpoint low_stock (threshold : Z) (inv : list (Z * Item)) : list LowStockEntry :=
  match inv with
  | [] => []
  | (id, item) :: rest =>
      let available := stock item - reserved item in
      if available <=? threshold then
        {| ls_item_id := id; ls_name := name item; ls_sku := sku item;
           ls_stock := stock item; ls_reserved := reserved item;
           ls_available := available |} :: low_stock threshold rest
      else low_stock threshold rest
  end.

(** [get_low_stock_items(threshold)] *)
Definition get_low_stock_items (threshold : Z) (s : t) : list LowStockEntry :=
  sorted ls_available (low_stock threshold (inventory s)).

(** A call on the ledger, with the clock readings it makes. *)
Inductive op : Type :=
| GetItem (t_get t_utc t_set : Z) (id : Z)
| CheckAvailability (id quantity : Z)
| ReserveItems (t_utc : Z) (order_id : string) (items : list (Z * Z))
| ReleaseReservation (order_id : string)
| AdjustInventory (t_utc : Z) (id adjustment : Z) (reason : string)
| GetLowStockItems (threshold : Z).

(** The state a call leaves behind, whether it returns or raises. *)
Definition step (s : t) (o : op) : t :=
  match o with
  | GetItem t_get t_utc t_set id => (get_item t_get t_utc t_set id s).2
  | CheckAvailability _ _ => s
  | ReserveItems t_utc order_id items => (reserve_items t_utc order_id items s).2
  | ReleaseReservation order_id => (release_reservation order_id s).2
  | AdjustInventory t_utc id adjustment reason =>
      (adjust_inventory t_utc id adjustment reason s).2
  | GetLowStockItems _ => s
  end.

Definition run (os : list op) (s : t) : t := foldl step s os.

(** *** Vocabulary of the statements *)

(** Units of [id] asked for by a list of pairs, all its pairs counted. *)
Fixpoint requested (id : Z) (items : list (Z * Z)) : Z :=
  match items with
  | [] => 0
  | (id', quantity) :: rest =>
      (if decide (id = id') then quantity else 0) + requested id rest
  end.

(** Units of [id] held by the live reservations. *)
Definition held (id : Z) (rs : gmap string Reservation) : Z :=
  map_fold (λ _ r acc, requested id (r_items r) + acc) 0 rs.

(** The invariant of the data model on one item. *)
Definition item_ok (it : Item) : Prop := 0 ≤ reserved it ≤ stock it.

(** A reservation request of the shape the ledger is written for: each
    item named once, no negative quantity. *)
Definition request_ok (items : list (Z * Z)) : Prop :=
  NoDup items.*1 ∧ Forall (λ p, 0 ≤ p.2) items.

(** An adjustment that, when accepted, keeps the stock at or above the
    reserved units. *)
Definition adjustment_ok (id adjustment : Z) (s : t) : Prop :=
  match dict_get id (inventory s) with
  | Some it => stock it + adjustment < 0 ∨ reserved it ≤ stock it + adjustment
  | None => True
  end.

Definition op_ok (s : t) (o : op) : Prop :=
  match o with
  | ReserveItems _ _ items => request_ok items
  | AdjustInventory _ id adjustment _ => adjustment_ok id adjustment s
  | _ => True
  end.

(** Every call of the sequence is [op_ok] in the state it is made in. *)
Fixpoint run_ok (os : list op) (s : t) : Prop :=
  match os with
  | [] => True
  | o :: os' => op_ok s o ∧ run_ok os' (step s o)
  end.

(** Two items that differ at most in [reserved] / in [stock]. *)
Definition same_but_reserved (it it' : Item) : Prop :=
  item_id it' = item_id it ∧ name it' = name it ∧
  sku it' = sku it ∧ stock it' = stock it.

Definition same_but_stock (it it' : Item) : Prop :=
  item_id it' = item_id it ∧ name it' = name it ∧
  sku it' = sku it ∧ reserved it' = reserved it.

(** The two dicts have the same keys in the same order, and the items
    under a key are related by [R], those under a key outside [named]
    being equal. *)
Definition frame (R : Item → Item → Prop) (named : list Z)
    (inv inv' : list (Z * Item)) : Prop :=
  inv'.*1 = inv.*1 ∧
  ∀ id,
    match dict_get id inv, dict_get id inv' with
    | Some it, Some it' => R it it' ∧ (id ∉ named → it' = it)
    | None, None => True
    | _, _ => False
    end.

(** The low-stock entry of a catalog pair. *)
Definition entry_of (p : Z * Item) : LowStockEntry :=
  {| ls_item_id := p.1; ls_name := name p.2; ls_sku := sku p.2;
     ls_stock := stock p.2; ls_reserved := reserved p.2;
     ls_available := stock p.2 - reserved p.2 |}.

(** The item ids of the live reservation of [order_id], if any. *)
Definition named_by (order_id : string) (s : t) : list Z :=
  match reservations s !! order_id with
  | Some r => (r_items r).*1
  | None => []
  end.

(** The invariant that a run of [op_ok] calls maintains. *)
Definition ledger_ok (s : t) : Prop :=
  NoDup (inventory s).*1 ∧
  (∀ id it, dict_get id (inventory s) = Some it →
     held id (reservations s) ≤ reserved it ≤ stock it) ∧
  (∀ o r, reservations s !! o = Some r →
     Forall (λ p, 0 ≤ p.2 ∧ is_Some (dict_get p.1 (inventory s))) (r_items r)).

(** The view shows the item as the ledger holds it. *)
Definition view_fresh (it : Item) (v : ItemView) : Prop :=
  v_item_id v = item_id it ∧ v_name v = name it ∧ v_sku v = sku it ∧
  v_stock v = stock it ∧ v_reserved v = reserved it ∧
  v_available v = stock it - reserved it.

(** Every cache entry is the fresh view of a catalog item, under the
    key of that item. *)
Definition coherent (s : t) : Prop :=
  ∀ key v, CacheManager.cache (cache s) !! key = Some v →
    ∃ id it, key = item_key id ∧ dict_get id (inventory s) = Some it ∧
             view_fresh it v.

(** Every item of every live reservation is in the catalog. *)
Definition reservations_known (s : t) : Prop :=
  ∀ o r, reservations s !! o = Some r →
    Forall (λ p, is_Some (dict_get p.1 (inventory s))) (r_items r).

(** Sum of the adjustments logged for [id]. *)
Fixpoint logged (id : Z) (log : list AdjustmentLogEntry) : Z :=
  match log with
  | [] => 0
  | e :: log' =>
      (if decide (log_item_id e = id) then log_adjustment e else 0) + logged id log'
  end.


End InventoryManager.

(** * Properties of insertion-ordered dictionaries *)

Section DictFacts.
Context {K V : Type} `{EqDecision K}.
Implicit Types (k j : K) (v : V) (d : list (K * V)).

Lemma dict_get_set k j v d :
  dict_get j (dict_set k v d) = if decide (j = k) then Some v else dict_get j d.
Proof.
  induction d as [|[k0 v0] d IH]; simpl.
  - destruct (decide (j = k)); done.
  - destruct (decide (k = k0)) as [->|Hne]; simpl.
    + destruct (decide (j = k0)); done.
    + rewrite IH. destruct (decide (j = k0)), (decide (j = k)); try done.
      by subst.
Qed.

Lemma dict_set_keys k v d :
  is_Some (dict_get k d) → (dict_set k v d).*1 = d.*1.
Proof.
  induction d as [|[k0 v0] d IH]; simpl.
  - by intros [? ?].
  - destruct (decide (k = k0)); simpl; [done|].
    intros Hk. f_equal. by apply IH.
Qed.

Lemma dict_get_None k d : dict_get k d = None ↔ k ∉ d.*1.
Proof.
  induction d as [|[k0 v0] d IH]; simpl.
  - split; [intros _; apply not_elem_of_nil|done].
  - rewrite not_elem_of_cons. destruct (decide (k = k0)); [|tauto].
    split; [done|tauto].
Qed.

Lemma dict_get_elem k v d : dict_get k d = Some v → (k, v) ∈ d.
Proof.
  induction d as [|[k0 v0] d IH]; simpl; [done|].
  destruct (decide (k = k0)) as [->|]; intros Hk.
  - injection Hk as ->. apply elem_of_cons; by left.
  - apply elem_of_cons; right; auto.
Qed.

Lemma dict_elem_get k v d : NoDup d.*1 → (k, v) ∈ d → dict_get k d = Some v.
Proof.
  induction d as [|[k0 v0] d IH]; simpl; intros Hnd Hin.
  - by apply elem_of_nil in Hin.
  - apply NoDup_cons in Hnd as [Hk0 Hnd].
    apply elem_of_cons in Hin as [Heq|Hin].
    + injection Heq as -> ->. by rewrite decide_True.
    + rewrite decide_False; [auto|].
      intros ->. apply Hk0. apply list_elem_of_fmap. by exists (k0, v).
Qed.

Lemma dict_set_fresh k v d : k ∉ d.*1 → dict_set k v d = d ++ [(k, v)].
Proof.
  induction d as [|[k0 v0] d IH]; simpl; [done|].
  rewrite not_elem_of_cons. intros [Hne Hk].
  rewrite decide_False by done. by rewrite IH.
Qed.

Lemma dict_fill_fresh (items d : list (K * V)) :
  NoDup (d ++ items).*1 →
  foldl (λ acc p, dict_set p.1 p.2 acc) d items = d ++ items.
Proof.
  revert d. induction items as [|[k v] items IH]; intros d Hnd; simpl.
  - by rewrite app_nil_r.
  - rewrite dict_set_fresh.
    + rewrite IH; rewrite <- app_assoc; done.
    + rewrite fmap_app in Hnd. apply NoDup_app in Hnd as (_ & Hd & _).
      intros Hk. apply (Hd k Hk). simpl. apply elem_of_cons; by left.
Qed.

End DictFacts.

(** * Properties of [sorted] *)

Section SortedFacts.
Context {A : Type} (key : A → Z).
Implicit Types (x : A) (l : list A).

Lemma insert_by_perm x l : insert_by key x l ≡ₚ x :: l.
Proof.
  induction l as [|y l IH]; simpl; [done|].
  destruct (key x <=? key y); [done|].
  rewrite IH. apply Permutation_swap.
Qed.

Lemma sorted_perm l : sorted key l ≡ₚ l.
Proof.
  induction l as [|x l IH]; simpl; [done|].
  rewrite insert_by_perm. by rewrite IH.
Qed.

Lemma insert_by_sorted x l :
  StronglySorted (λ a b, key a ≤ key b) l →
  StronglySorted (λ a b, key a ≤ key b) (insert_by key x l).
Proof.
  induction 1 as [|y l Hl IH Hy]; simpl.
  - repeat constructor.
  - destruct (key x <=? key y) eqn:Hxy.
    + constructor; [by constructor|].
      constructor; [lia|].
      eapply Forall_impl; [exact Hy|]. intros z Hz. simpl in Hz. lia.
    + constructor; [done|].
      rewrite insert_by_perm. constructor; [lia|done].
Qed.

Lemma sorted_sorted l : StronglySorted (λ a b, key a ≤ key b) (sorted key l).
Proof.
  induction l as [|x l IH]; simpl; [constructor|]. by apply insert_by_sorted.
Qed.

(** The sort is stable: elements of equal key keep their order. *)
Lemma insert_by_filter (k : Z) x l :
  filter (λ a, key a = k) (insert_by key x l)
  = filter (λ a, key a = k) (x :: l).
Proof.
  induction l as [|y l IH]; simpl; [done|].
  destruct (key x <=? key y) eqn:Hxy; [done|].
  rewrite !filter_cons. rewrite IH. rewrite filter_cons.
  destruct (decide (key y = k)), (decide (key x = k)); try done. lia.
Qed.

Lemma sorted_stable (k : Z) l :
  filter (λ a, key a = k) (sorted key l) = filter (λ a, key a = k) l.
Proof.
  induction l as [|x l IH]; simpl; [done|].
  rewrite insert_by_filter. rewrite !filter_cons. by rewrite IH.
Qed.

End SortedFacts.

(** * Properties of the cache *)

Section CacheFacts.
Context {V : Type}.
Implicit Types (c : CacheManager.t V) (os : list (CacheManager.op V)).

Lemma cache_set_tables now key (v : V) ttl c :
  CacheManager.cache (CacheManager.set now key v ttl c).2
  = <[key := v]> (CacheManager.cache c) ∧
  CacheManager.expiry (CacheManager.set now key v ttl c).2
  = (if CacheManager.expiry_in_range now ttl
     then <[key := now + ttl * 1000000]> (CacheManager.expiry c)
     else CacheManager.expiry c) ∧
  CacheManager.hits (CacheManager.set now key v ttl c).2 = CacheManager.hits c ∧
  CacheManager.misses (CacheManager.set now key v ttl c).2 = CacheManager.misses c.
Proof.
  unfold CacheManager.set. by destruct (CacheManager.expiry_in_range now ttl).
Qed.

Lemma cache_set_other now key (v : V) ttl c k :
  k ≠ key →
  CacheManager.cache (CacheManager.set now key v ttl c).2 !! k
  = CacheManager.cache c !! k ∧
  CacheManager.expiry (CacheManager.set now key v ttl c).2 !! k
  = CacheManager.expiry c !! k.
Proof.
  intros Hne. destruct (cache_set_tables now key v ttl c) as (-> & -> & _).
  rewrite lookup_insert_ne by done. split; [done|].
  destruct (CacheManager.expiry_in_range now ttl); [|done].
  by rewrite lookup_insert_ne.
Qed.

Lemma cache_delete_tables key c :
  CacheManager.cache (CacheManager.delete key c)
  = delete key (CacheManager.cache c) ∧
  CacheManager.hits (CacheManager.delete key c) = CacheManager.hits c ∧
  CacheManager.misses (CacheManager.delete key c) = CacheManager.misses c ∧
  ∀ k, k ≠ key →
    CacheManager.expiry (CacheManager.delete key c) !! k
    = CacheManager.expiry c !! k.
Proof.
  unfold CacheManager.delete.
  destruct (CacheManager.cache c !! key) eqn:Hk; simpl.
  - repeat split; try done. intros k Hne.
    destruct (CacheManager.expiry c !! key); [|done].
    by rewrite lookup_delete_ne.
  - repeat split; try done. by rewrite delete_id.
Qed.

Lemma cache_get_other now key c k :
  k ≠ key →
  CacheManager.cache (CacheManager.get now key c).2 !! k
  = CacheManager.cache c !! k ∧
  CacheManager.expiry (CacheManager.get now key c).2 !! k
  = CacheManager.expiry c !! k.
Proof.
  intros Hne. unfold CacheManager.get.
  destruct (CacheManager.cache c !! key); [|done].
  destruct (CacheManager.expiry c !! key); [|done].
  destruct (now >? _); simpl; [|done].
  by rewrite !lookup_delete_ne.
Qed.

Lemma cache_delete_other key c k :
  k ≠ key →
  CacheManager.cache (CacheManager.delete key c) !! k
  = CacheManager.cache c !! k ∧
  CacheManager.expiry (CacheManager.delete key c) !! k
  = CacheManager.expiry c !! k.
Proof.
  intros Hne. destruct (cache_delete_tables key c) as (-> & _ & _ & He).
  rewrite lookup_delete_ne by done. split; [done|]. by apply He.
Qed.

(** An entry that has not expired stays as it is under calls that keep it. *)
Lemma cache_entry_kept key (v : V) e os c :
  Forall (CacheManager.keeps_entry key e) os →
  CacheManager.cache c !! key = Some v →
  CacheManager.expiry c !! key = Some e →
  CacheManager.cache (CacheManager.run os c) !! key = Some v ∧
  CacheManager.expiry (CacheManager.run os c) !! key = Some e.
Proof.
  intros Hos. revert c.
  induction Hos as [|o os Ho _ IH]; intros c Hc He; [done|].
  change (CacheManager.run (o :: os) c)
    with (CacheManager.run os (CacheManager.step c o)).
  apply IH; destruct o as [now k|now k v' ttl|k|]; simpl in *; try done.
  - destruct (decide (k = key)) as [->|Hne].
    + unfold CacheManager.get. rewrite Hc, He.
      destruct (now >? e) eqn:Hcmp; [|done]. destruct Ho; [done|lia].
    + by destruct (cache_get_other now k c key) as [-> _].
  - by destruct (cache_set_other now k v' ttl c key) as [-> _].
  - by destruct (cache_delete_other k c key) as [-> _].
  - destruct (decide (k = key)) as [->|Hne].
    + unfold CacheManager.get. rewrite Hc, He.
      destruct (now >? e) eqn:Hcmp; [|done]. destruct Ho; [done|lia].
    + by destruct (cache_get_other now k c key) as [_ ->].
  - by destruct (cache_set_other now k v' ttl c key) as [_ ->].
  - by destruct (cache_delete_other k c key) as [_ ->].
Qed.

(** Without a [set] of the key, an entry is either as it was or gone
    from both tables. *)
Lemma cache_entry_kept_or_gone key (v : V) e os c :
  Forall (CacheManager.no_set key) os →
  (CacheManager.cache c !! key = Some v ∧ CacheManager.expiry c !! key = Some e) ∨
  (CacheManager.cache c !! key = None ∧ CacheManager.expiry c !! key = None) →
  (CacheManager.cache (CacheManager.run os c) !! key = Some v ∧
   CacheManager.expiry (CacheManager.run os c) !! key = Some e) ∨
  (CacheManager.cache (CacheManager.run os c) !! key = None ∧
   CacheManager.expiry (CacheManager.run os c) !! key = None).
Proof.
  intros Hos. revert c.
  induction Hos as [|o os Ho _ IH]; intros c Hc; [done|].
  change (CacheManager.run (o :: os) c)
    with (CacheManager.run os (CacheManager.step c o)).
  apply IH. clear IH.
  destruct o as [now k|now k v' ttl|k|]; simpl in *.
  - destruct (decide (k = key)) as [->|Hne].
    + unfold CacheManager.get.
      destruct Hc as [[Hc He]|[Hc He]]; rewrite Hc; [|by right].
      rewrite He. destruct (now >? e); simpl; [|by left].
      right. by rewrite !lookup_delete_eq.
    + by destruct (cache_get_other now k c key) as [-> ->].
  - by destruct (cache_set_other now k v' ttl c key) as [-> ->].
  - destruct (decide (k = key)) as [->|Hne].
    + unfold CacheManager.delete.
      destruct Hc as [[Hc He]|[Hc He]]; rewrite Hc; [|by right].
      simpl. rewrite He. right. by rewrite !lookup_delete_eq.
    + by destruct (cache_delete_other k c key) as [-> ->].
  - right. by rewrite !lookup_empty.
Qed.

Lemma cache_counters_step c o :
  CacheManager.hits c ≤ CacheManager.hits (CacheManager.step c o) ∧
  CacheManager.misses c ≤ CacheManager.misses (CacheManager.step c o) ∧
  CacheManager.hits (CacheManager.step c o) + CacheManager.misses (CacheManager.step c o)
  = CacheManager.hits c + CacheManager.misses c + CacheManager.gets [o].
Proof.
  destruct o as [now k|now k v ttl|k|]; simpl.
  - unfold CacheManager.get.
    destruct (CacheManager.cache c !! k); [|simpl; lia].
    destruct (CacheManager.expiry c !! k); [|simpl; lia].
    destruct (now >? _); simpl; lia.
  - destruct (cache_set_tables now k v ttl c) as (_ & _ & -> & ->). lia.
  - unfold CacheManager.delete.
    destruct (CacheManager.cache c !! k); simpl; lia.
  - lia.
Qed.

Lemma cache_gets_cons o os :
  CacheManager.gets (o :: os) = CacheManager.gets [o] + CacheManager.gets os.
Proof. destruct o; simpl; lia. Qed.

Lemma cache_counters_run os c :
  CacheManager.hits c ≤ CacheManager.hits (CacheManager.run os c) ∧
  CacheManager.misses c ≤ CacheManager.misses (CacheManager.run os c) ∧
  CacheManager.hits (CacheManager.run os c) + CacheManager.misses (CacheManager.run os c)
  = CacheManager.hits c + CacheManager.misses c + CacheManager.gets os.
Proof.
  revert c. induction os as [|o os IH]; intros c.
  - simpl. lia.
  - change (CacheManager.run (o :: os) c)
      with (CacheManager.run os (CacheManager.step c o)).
    rewrite cache_gets_cons.
    pose proof (IH (CacheManager.step c o)).
    pose proof (cache_counters_step c o). lia.
Qed.

End CacheFacts.

Lemma round_half_even_near (x : Q) :
  (Qabs (inject_Z (CacheManager.round_half_even x) - x) <= 1 # 2)%Q.
Proof.
  pose proof (Qfloor_le x) as Hlo.
  pose proof (Qlt_floor x) as Hhi.
  assert (Hs : (inject_Z (Qfloor x + 1) == inject_Z (Qfloor x) + 1)%Q)
    by (rewrite inject_Z_plus; reflexivity).
  rewrite Hs in Hhi.
  unfold CacheManager.round_half_even.
  apply Qabs_Qle_condition.
  destruct (Qcompare (x - inject_Z (Qfloor x)) (1 # 2)) eqn:Hc.
  - apply Qeq_alt in Hc.
    destruct (Z.even (Qfloor x)); rewrite ?Hs; lra.
  - apply Qlt_alt in Hc. lra.
  - apply Qgt_alt in Hc. rewrite Hs. lra.
Qed.


(** * Properties of the ledger *)

Import InventoryManager.

Lemma bump_0 it : bump 0 it = it.
Proof. destruct it; unfold bump; simpl. f_equal. lia. Qed.

Lemma bump_bump a b it : bump b (bump a it) = bump (a + b) it.
Proof. unfold bump; simpl. f_equal. lia. Qed.

Lemma requested_notin id (items : list (Z * Z)) :
  id ∉ items.*1 → requested id items = 0.
Proof.
  induction items as [|[id' q] items IH]; simpl; [done|].
  rewrite not_elem_of_cons. intros [Hne Hid].
  rewrite decide_False by done. rewrite IH by done. lia.
Qed.


Lemma requested_nonneg id (items : list (Z * Z)) :
  Forall (λ p, 0 ≤ p.2) items → 0 ≤ requested id items.
Proof.
  induction 1 as [|[id' q] items Hq _ IH]; simpl in *; [lia|].
  destruct (decide (id = id')); lia.
Qed.

Lemma requested_app id (xs ys : list (Z * Z)) :
  requested id (xs ++ ys) = requested id xs + requested id ys.
Proof. induction xs as [|[id' q] xs IH]; simpl; [done|]. rewrite IH. lia. Qed.

Lemma requested_opp id (items : list (Z * Z)) :
  requested id (prod_map (λ k, k) Z.opp <$> items) = - requested id items.
Proof.
  induction items as [|[id' q] items IH]; [done|].
  rewrite fmap_cons. cbn [requested prod_map fst snd].
  rewrite IH. destruct (decide (id = id')); lia.
Qed.

(** What the second loop of [reserve_items] does: it handles the pairs
    [done_] up to the first one whose item is unknown, adding to each
    item the units asked for it, and stops there with a [KeyError]. *)
Lemma reserve_loop_spec (items details : list (Z * Z)) (s : t) :
  ∃ done_ rest_,
    items = done_ ++ rest_ ∧
    (Forall (λ p, is_Some (dict_get p.1 (inventory s))) items → rest_ = []) ∧
    (rest_ = [] →
       (reserve_loop items details s).1
       = Return (foldl (λ acc p, dict_set p.1 p.2 acc) details items)) ∧
    reservations (reserve_loop items details s).2 = reservations s ∧
    adjustment_log (reserve_loop items details s).2 = adjustment_log s ∧
    (inventory (reserve_loop items details s).2).*1 = (inventory s).*1 ∧
    ∀ id, dict_get id (inventory (reserve_loop items details s).2)
          = bump (requested id done_) <$> dict_get id (inventory s).
Proof.
  revert details s. induction items as [|[id q] items IH]; intros details s.
  - exists [], []. repeat split; try done.
    intros id. simpl. destruct (dict_get id (inventory s)); simpl; [|done].
    by rewrite bump_0.
  - simpl. destruct (dict_get id (inventory s)) as [item|] eqn:Hid.
    + set (s1 := {| cache := CacheManager.delete (item_key id) (cache s);
                    inventory := dict_set id (bump q item) (inventory s);
                    reservations := reservations s;
                    adjustment_log := adjustment_log s |}).
      destruct (IH (dict_set id q details) s1)
        as (done_ & rest_ & Hsplit & Hall & Hret & Hrs & Hlog & Hkeys & Hget).
      exists ((id, q) :: done_), rest_. split; [by rewrite Hsplit|].
      split.
      { intros Hknown. apply Forall_cons in Hknown as [_ Hknown].
        apply Hall. eapply Forall_impl; [exact Hknown|].
        intros [id' q'] [it' Hit']; simpl in *.
        rewrite dict_get_set. destruct (decide (id' = id)); eauto. }
      split; [exact Hret|]. split; [exact Hrs|]. split; [exact Hlog|].
      split.
      { rewrite Hkeys. simpl. apply dict_set_keys. by rewrite Hid. }
      intros id'. rewrite Hget. simpl. rewrite dict_get_set.
      destruct (decide (id' = id)) as [->|Hne].
      * rewrite Hid. simpl. by rewrite bump_bump.
      * destruct (dict_get id' (inventory s)); simpl; [|done].
        by rewrite Z.add_0_l.
    + exists [], ((id, q) :: items). split; [done|].
      split.
      { intros Hknown. apply Forall_cons in Hknown as [[it Hit] _].
        simpl in Hit. congruence. }
      split; [done|]. repeat split; try done.
      intros id'. simpl. destruct (dict_get id' (inventory s)); simpl; [|done].
      by rewrite bump_0.
Qed.

(** The loop of [release_reservation] is the same walk with the
    quantities negated. *)
Lemma release_loop_reserve_loop (items details : list (Z * Z)) (s : t) :
  release_loop items s =
    (match (reserve_loop (prod_map (λ k, k) Z.opp <$> items) details s).1 with
     | Return _ => Return ()
     | Raise e => Raise e
     end,
     (reserve_loop (prod_map (λ k, k) Z.opp <$> items) details s).2).
Proof.
  revert details s. induction items as [|[id q] items IH]; intros details s.
  - done.
  - simpl. destruct (dict_get id (inventory s)); [|done]. apply IH.
Qed.

Lemma release_loop_spec (items : list (Z * Z)) (s : t) :
  ∃ done_ rest_,
    items = done_ ++ rest_ ∧
    (Forall (λ p, is_Some (dict_get p.1 (inventory s))) items → rest_ = []) ∧
    (rest_ = [] → (release_loop items s).1 = Return ()) ∧
    reservations (release_loop items s).2 = reservations s ∧
    adjustment_log (release_loop items s).2 = adjustment_log s ∧
    (inventory (release_loop items s).2).*1 = (inventory s).*1 ∧
    ∀ id, dict_get id (inventory (release_loop items s).2)
          = bump (- requested id done_) <$> dict_get id (inventory s).
Proof.
  rewrite (release_loop_reserve_loop items []). simpl.
  destruct (reserve_loop_spec (prod_map (λ k, k) Z.opp <$> items) [] s)
    as (done_ & rest_ & Hsplit & Hall & Hret & Hrs & Hlog & Hkeys & Hget).
  exists (prod_map (λ k, k) Z.opp <$> done_), (prod_map (λ k, k) Z.opp <$> rest_).
  assert (Hinv : ∀ l : list (Z * Z),
             prod_map (λ k, k) Z.opp <$> (prod_map (λ k, k) Z.opp <$> l) = l).
  { intros l. rewrite <- list_fmap_compose.
    rewrite <- (list_fmap_id l) at 2. apply list_fmap_ext.
    intros _ [a b] _. simpl. f_equal. lia. }
  split.
  { rewrite <- fmap_app, <- Hsplit. by rewrite Hinv. }
  split.
  { intros Hknown. rewrite Hall; [done|].
    apply Forall_fmap. eapply Forall_impl; [exact Hknown|]. by intros [a b]. }
  split.
  { intros Hnil. rewrite Hret; [done|].
    destruct rest_; [done|discriminate]. }
  split; [done|]. split; [done|]. split; [done|].
  intros id. rewrite Hget. rewrite <- (Hinv done_) at 1.
  by rewrite requested_opp.
Qed.

Lemma check_availability_known id q s :
  check_availability id q s = true → is_Some (dict_get id (inventory s)).
Proof. unfold check_availability. destruct (dict_get id (inventory s)); eauto. done. Qed.

Lemma validate_None (items : list (Z * Z)) (s : t) :
  validate items s = None ↔
  Forall (λ p, check_availability p.1 p.2 s = true) items.
Proof.
  induction items as [|[id q] items IH]; simpl.
  - split; [constructor|done].
  - rewrite Forall_cons. simpl.
    destruct (check_availability id q s); simpl; [tauto|].
    split; [done|]. by intros [? _].
Qed.



(** A request that passes validation is committed whole. *)
Lemma reserve_items_commits t_utc order_id (items : list (Z * Z)) (s : t) :
  reservations s !! order_id = None →
  Forall (λ p, check_availability p.1 p.2 s = true) items →
  let details := foldl (λ acc p, dict_set p.1 p.2 acc) [] items in
  let r := reserve_items t_utc order_id items s in
  r.1 = Return (Reserved order_id (length details) details) ∧
  reservations r.2
  = <[order_id := {| r_items := details; r_timestamp := t_utc |}]> (reservations s) ∧
  adjustment_log r.2 = adjustment_log s ∧
  (inventory r.2).*1 = (inventory s).*1 ∧
  ∀ id, dict_get id (inventory r.2)
        = bump (requested id items) <$> dict_get id (inventory s).
Proof.
  intros Hfree Hpass details r. subst r. unfold reserve_items.
  rewrite Hfree. rewrite (proj2 (validate_None items s) Hpass).
  destruct (reserve_loop_spec items [] s)
    as (done_ & rest_ & Hsplit & Hall & Hret & Hrs & Hlog & Hkeys & Hget).
  assert (rest_ = []) as Hnil.
  { apply Hall. eapply Forall_impl; [exact Hpass|].
    intros [id q]. apply check_availability_known. }
  specialize (Hret Hnil). subst rest_. rewrite app_nil_r in Hsplit. subst done_.
  destruct (reserve_loop items [] s) as [[details'|e] s']; simpl in *; [|done].
  injection Hret as ->. fold details.
  by rewrite Hrs.
Qed.

(** A live reservation whose items are all in the catalog is released
    whole. *)
Lemma release_reservation_commits order_id (r : Reservation) (s : t) :
  reservations s !! order_id = Some r →
  Forall (λ p, is_Some (dict_get p.1 (inventory s))) (r_items r) →
  let res := release_reservation order_id s in
  res.1 = Return (Released order_id (length (r_items r))) ∧
  reservations res.2 = delete order_id (reservations s) ∧
  adjustment_log res.2 = adjustment_log s ∧
  (inventory res.2).*1 = (inventory s).*1 ∧
  ∀ id, dict_get id (inventory res.2)
        = bump (- requested id (r_items r)) <$> dict_get id (inventory s).
Proof.
  intros Hlive Hknown res. subst res. unfold release_reservation.
  rewrite Hlive.
  destruct (release_loop_spec (r_items r) s)
    as (done_ & rest_ & Hsplit & Hall & Hret & Hrs & Hlog & Hkeys & Hget).
  specialize (Hall Hknown). specialize (Hret Hall). subst rest_.
  rewrite app_nil_r in Hsplit. subst done_.
  destruct (release_loop (r_items r) s) as [[[]|e] s']; simpl in *; [|done].
  by rewrite Hrs.
Qed.

(** ** Units held by the live reservations *)

Lemma held_empty id : held id ∅ = 0.
Proof. unfold held. by rewrite map_fold_empty. Qed.

Lemma held_insert id o r (rs : gmap string Reservation) :
  rs !! o = None →
  held id (<[o := r]> rs) = requested id (r_items r) + held id rs.
Proof.
  intros Hfree. unfold held.
  rewrite map_fold_insert_L; [done| |done]. intros; lia.
Qed.

Lemma held_delete id o r (rs : gmap string Reservation) :
  rs !! o = Some r →
  held id rs = requested id (r_items r) + held id (delete o rs).
Proof.
  intros Hlive. unfold held.
  rewrite (map_fold_delete_L _ _ o r rs); [done| |done]. intros; lia.
Qed.

Lemma held_nonneg id (rs : gmap string Reservation) :
  (∀ o r, rs !! o = Some r → Forall (λ p, 0 ≤ p.2) (r_items r)) →
  0 ≤ held id rs.
Proof.
  induction rs as [|o r rs Hfree IH] using map_ind; intros Hq.
  - by rewrite held_empty.
  - rewrite held_insert by done.
    pose proof (requested_nonneg id (r_items r)
                  (Hq o r (lookup_insert_eq _ _ _))).
    assert (0 ≤ held id rs); [|lia].
    apply IH. intros o' r' Hr'. apply (Hq o' r').
    rewrite lookup_insert_ne; [done|]. intros ->. congruence.
Qed.

(** ** The invariant of the ledger *)

Lemma ledger_ok_ext (s s' : t) :
  inventory s' = inventory s → reservations s' = reservations s →
  ledger_ok s → ledger_ok s'.
Proof. unfold ledger_ok. by intros -> ->. Qed.

Lemma ledger_ok_init c : ledger_ok (init c).
Proof.
  split; [|split].
  - apply (bool_decide_unpack _). by vm_compute.
  - intros id it Hit. simpl. rewrite held_empty.
    apply dict_get_elem in Hit.
    assert (Hall : Forall (λ p : Z * Item, 0 ≤ reserved p.2 ≤ stock p.2)
                     initialize_inventory)
      by (unfold initialize_inventory; repeat constructor; simpl; lia).
    rewrite Forall_forall in Hall. apply (Hall _ Hit).
  - intros o r Hr. simpl in Hr. by rewrite lookup_empty in Hr.
Qed.

Lemma get_item_frame t_get t_utc t_set id s :
  inventory (get_item t_get t_utc t_set id s).2 = inventory s ∧
  reservations (get_item t_get t_utc t_set id s).2 = reservations s ∧
  adjustment_log (get_item t_get t_utc t_set id s).2 = adjustment_log s.
Proof.
  unfold get_item.
  destruct (CacheManager.get t_get (item_key id) (cache s)) as [[view|] c]; [done|].
  destruct (dict_get id (inventory s)); [|done].
  by destruct (CacheManager.set _ _ _ _ _) as [[[]|e] c'].
Qed.

Lemma requested_le_available id it (items : list (Z * Z)) (s : t) :
  NoDup items.*1 →
  Forall (λ p, check_availability p.1 p.2 s = true) items →
  dict_get id (inventory s) = Some it →
  reserved it ≤ stock it →
  requested id items ≤ stock it - reserved it.
Proof.
  intros Hnd Hpass Hit Hle.
  induction items as [|[id' q] items IH]; simpl in *; [lia|].
  apply NoDup_cons in Hnd as [Hfresh Hnd].
  apply Forall_cons in Hpass as [Hq Hpass]. simpl in Hq.
  destruct (decide (id = id')) as [<-|Hne].
  - rewrite (requested_notin id items Hfresh).
    unfold check_availability in Hq. rewrite Hit in Hq. lia.
  - specialize (IH Hnd Hpass). lia.
Qed.

Lemma ledger_ok_reserve_items t_utc order_id (items : list (Z * Z)) (s : t) :
  request_ok items → ledger_ok s →
  ledger_ok (reserve_items t_utc order_id items s).2.
Proof.
  intros [Hnd Hq] Hok.
  destruct (reservations s !! order_id) as [r0|] eqn:Hfree.
  { unfold reserve_items. by rewrite Hfree. }
  destruct (validate items s) as [res|] eqn:Hval.
  { unfold reserve_items. by rewrite Hfree, Hval. }
  apply validate_None in Hval.
  destruct (reserve_items_commits t_utc order_id items s Hfree Hval)
    as (_ & Hrs & _ & Hkeys & Hget).
  rewrite (dict_fill_fresh items []) in Hrs by done. simpl in Hrs.
  destruct Hok as (Hkeys0 & Hitems & Hres).
  set (s' := (reserve_items t_utc order_id items s).2) in *.
  assert (Hknown : ∀ id, is_Some (dict_get id (inventory s)) →
                         is_Some (dict_get id (inventory s'))).
  { intros id [it Hit]. rewrite Hget, Hit. eauto. }
  split; [by rewrite Hkeys|]. split.
  - intros id it' Hit'. rewrite Hget in Hit'.
    destruct (dict_get id (inventory s)) as [it|] eqn:Hit; [|done].
    injection Hit' as <-. simpl.
    rewrite Hrs, held_insert by done. simpl.
    destruct (Hitems id it Hit) as [Hheld Hle].
    pose proof (requested_le_available id it items s Hnd Hval Hit Hle). lia.
  - intros o r Hr. rewrite Hrs in Hr.
    destruct (decide (o = order_id)) as [->|Hne].
    + rewrite lookup_insert_eq in Hr. injection Hr as <-. simpl.
      apply Forall_forall. intros [id q] Hin.
      rewrite Forall_forall in Hq, Hval. split; [apply (Hq _ Hin)|].
      apply Hknown. apply (check_availability_known id q s). apply (Hval _ Hin).
    + rewrite lookup_insert_ne in Hr by done.
      eapply Forall_impl; [apply (Hres o r Hr)|].
      intros [id q] [? ?]; split; [done|]. by apply Hknown.
Qed.

Lemma ledger_ok_release_reservation order_id (s : t) :
  ledger_ok s → ledger_ok (release_reservation order_id s).2.
Proof.
  intros Hok.
  destruct (reservations s !! order_id) as [r|] eqn:Hlive.
  2:{ unfold release_reservation. by rewrite Hlive. }
  destruct Hok as (Hkeys0 & Hitems & Hres).
  assert (Hknown0 : Forall (λ p, is_Some (dict_get p.1 (inventory s))) (r_items r)).
  { eapply Forall_impl; [apply (Hres _ _ Hlive)|]. by intros [id q] [_ ?]. }
  assert (Hq : Forall (λ p, 0 ≤ p.2) (r_items r)).
  { eapply Forall_impl; [apply (Hres _ _ Hlive)|]. by intros [id q] [? _]. }
  destruct (release_reservation_commits order_id r s Hlive Hknown0)
    as (_ & Hrs & _ & Hkeys & Hget).
  set (s' := (release_reservation order_id s).2) in *.
  assert (Hknown : ∀ id, is_Some (dict_get id (inventory s)) →
                         is_Some (dict_get id (inventory s'))).
  { intros id [it Hit]. rewrite Hget, Hit. eauto. }
  split; [by rewrite Hkeys|]. split.
  - intros id it' Hit'. rewrite Hget in Hit'.
    destruct (dict_get id (inventory s)) as [it|] eqn:Hit; [|done].
    injection Hit' as <-. simpl. rewrite Hrs.
    destruct (Hitems id it Hit) as [Hheld Hle].
    rewrite (held_delete id order_id r _ Hlive) in Hheld.
    pose proof (requested_nonneg id (r_items r) Hq). lia.
  - intros o r' Hr'. rewrite Hrs in Hr'.
    apply lookup_delete_Some in Hr' as [_ Hr'].
    eapply Forall_impl; [apply (Hres o r' Hr')|].
    intros [id q] [? ?]; split; [done|]. by apply Hknown.
Qed.

Lemma ledger_ok_adjust_inventory t_utc id adjustment reason (s : t) :
  adjustment_ok id adjustment s → ledger_ok s →
  ledger_ok (adjust_inventory t_utc id adjustment reason s).2.
Proof.
  unfold adjustment_ok, adjust_inventory. intros Hadj Hok.
  destruct (dict_get id (inventory s)) as [it|] eqn:Hit; [|done].
  destruct (stock it + adjustment <? 0) eqn:Hneg; [done|]. simpl.
  destruct Hok as (Hkeys0 & Hitems & Hres).
  split; [|split]; simpl.
  - rewrite dict_set_keys; [done|]. by rewrite Hit.
  - intros id' it' Hit'. rewrite dict_get_set in Hit'.
    destruct (decide (id' = id)) as [->|Hne]; [|by apply Hitems].
    injection Hit' as <-. simpl.
    destruct (Hitems id it Hit). lia.
  - intros o r Hr. eapply Forall_impl; [apply (Hres o r Hr)|].
    intros [id' q] [? ?]; split; [done|]. simpl.
    rewrite dict_get_set. destruct (decide (id' = id)); eauto.
Qed.

Lemma ledger_ok_step (s : t) (o : op) :
  op_ok s o → ledger_ok s → ledger_ok (step s o).
Proof.
  destruct o; simpl; intros Hop Hok; try done.
  - destruct (get_item_frame t_get t_utc t_set id s) as (Hinv & Hrs & _).
    by apply (ledger_ok_ext s).
  - by apply ledger_ok_reserve_items.
  - by apply ledger_ok_release_reservation.
  - by apply ledger_ok_adjust_inventory.
Qed.

Lemma ledger_ok_run (os : list op) (s : t) :
  run_ok os s → ledger_ok s → ledger_ok (run os s).
Proof.
  revert s. induction os as [|o os IH]; intros s; simpl; [done|].
  intros [Hop Hos] Hok. apply IH; [done|]. by apply ledger_ok_step.
Qed.

Lemma ledger_ok_items (s : t) :
  ledger_ok s → Forall (λ p, item_ok p.2) (inventory s).
Proof.
  intros (Hkeys & Hitems & Hres). apply Forall_forall. intros [id it] Hin.
  apply (dict_elem_get _ _ _ Hkeys) in Hin.
  destruct (Hitems id it Hin) as [Hheld Hle]. unfold item_ok. simpl.
  assert (0 ≤ held id (reservations s)); [|lia].
  apply held_nonneg. intros o r Hr.
  eapply Forall_impl; [apply (Hres o r Hr)|]. by intros [? ?] [? _].
Qed.

(** ** The low-stock report *)

Lemma low_stock_filter threshold (inv : list (Z * Item)) :
  low_stock threshold inv
  = entry_of <$> filter (λ p, stock p.2 - reserved p.2 ≤ threshold) inv.
Proof.
  induction inv as [|[id item] inv IH]; simpl; [done|].
  rewrite filter_cons. simpl.
  destruct (stock item - reserved item <=? threshold) eqn:Hle.
  - rewrite decide_True by lia. rewrite fmap_cons. by rewrite IH.
  - rewrite decide_False by lia. done.
Qed.

(** ** Reserve, then release *)


(** ** Frames *)

Lemma frame_refl (R : Item → Item → Prop) named (inv : list (Z * Item)) :
  (∀ it, R it it) → frame R named inv inv.
Proof.
  intros HR. split; [done|]. intros id.
  destruct (dict_get id inv); [|done]. by split.
Qed.

Lemma frame_bump (delta : Z → Z) named (inv inv' : list (Z * Item)) :
  inv'.*1 = inv.*1 →
  (∀ id, dict_get id inv' = bump (delta id) <$> dict_get id inv) →
  (∀ id, id ∉ named → delta id = 0) →
  frame same_but_reserved named inv inv'.
Proof.
  intros Hkeys Hget Hzero. split; [done|]. intros id. rewrite Hget.
  destruct (dict_get id inv) as [it|]; simpl; [|done].
  split; [done|]. intros Hid. rewrite (Hzero id Hid). apply bump_0.
Qed.

Lemma requested_notin_prefix id (done_ rest_ : list (Z * Z)) :
  id ∉ (done_ ++ rest_).*1 → requested id done_ = 0.
Proof.
  intros Hid. apply requested_notin. intros Hin. apply Hid.
  rewrite fmap_app. apply elem_of_app. by left.
Qed.

Lemma reserve_loop_frame (items details : list (Z * Z)) (s : t) :
  frame same_but_reserved items.*1
    (inventory s) (inventory (reserve_loop items details s).2).
Proof.
  destruct (reserve_loop_spec items details s)
    as (done_ & rest_ & Hsplit & _ & _ & _ & _ & Hkeys & Hget).
  apply (frame_bump (λ id, requested id done_)); [done|done|].
  intros id Hid. rewrite Hsplit in Hid. by apply requested_notin_prefix in Hid.
Qed.

Lemma release_loop_frame (items : list (Z * Z)) (s : t) :
  frame same_but_reserved items.*1
    (inventory s) (inventory (release_loop items s).2).
Proof.
  destruct (release_loop_spec items s)
    as (done_ & rest_ & Hsplit & _ & _ & _ & _ & Hkeys & Hget).
  apply (frame_bump (λ id, - requested id done_)); [done|done|].
  intros id Hid. rewrite Hsplit in Hid.
  apply requested_notin_prefix in Hid. lia.
Qed.

Lemma reserve_items_frame t_utc order_id (items : list (Z * Z)) (s : t) :
  frame same_but_reserved items.*1
    (inventory s) (inventory (reserve_items t_utc order_id items s).2).
Proof.
  unfold reserve_items.
  destruct (reservations s !! order_id); [by apply frame_refl|].
  destruct (validate items s); [by apply frame_refl|].
  pose proof (reserve_loop_frame items [] s) as H.
  by destruct (reserve_loop items [] s) as [[details|e] s'].
Qed.

Lemma release_reservation_frame order_id (s : t) :
  frame same_but_reserved (named_by order_id s)
    (inventory s) (inventory (release_reservation order_id s).2).
Proof.
  unfold release_reservation, named_by.
  destruct (reservations s !! order_id) as [r|]; [|by apply frame_refl].
  pose proof (release_loop_frame (r_items r) s) as H.
  by destruct (release_loop (r_items r) s) as [[[]|e] s'].
Qed.

Lemma adjust_inventory_frame t_utc (id adjustment : Z) (reason : string) (s : t) :
  frame same_but_stock [id]
    (inventory s) (inventory (adjust_inventory t_utc id adjustment reason s).2).
Proof.
  unfold adjust_inventory.
  destruct (dict_get id (inventory s)) as [item|] eqn:Hid; [|by apply frame_refl].
  destruct (stock item + adjustment <? 0); [by apply frame_refl|]. simpl.
  split; [apply dict_set_keys; by rewrite Hid|].
  intros id'. rewrite dict_get_set.
  destruct (decide (id' = id)) as [->|Hne].
  - rewrite Hid. split; [done|]. intros Hnot. exfalso. apply Hnot.
    by apply list_elem_of_singleton.
  - destruct (dict_get id' (inventory s)); [|done]. by split.
Qed.

(** ** What the guard of [adjust_inventory] does maintain *)

Lemma stock_nonneg_step (s : t) (o : op) :
  (∀ id it, dict_get id (inventory s) = Some it → 0 ≤ stock it) →
  (inventory (step s o)).*1 = (inventory s).*1 ∧
  ∀ id it, dict_get id (inventory (step s o)) = Some it → 0 ≤ stock it.
Proof.
  intros Hs.
  assert (Hframe : ∀ named inv',
            frame same_but_reserved named (inventory s) inv' →
            inv'.*1 = (inventory s).*1 ∧
            ∀ id it, dict_get id inv' = Some it → 0 ≤ stock it).
  { intros named inv' [Hkeys Hget]. split; [done|].
    intros id it' Hit'. specialize (Hget id). rewrite Hit' in Hget.
    destruct (dict_get id (inventory s)) as [it|] eqn:Hit; [|done].
    destruct Hget as [(_ & _ & _ & ->) _]. by apply (Hs id). }
  destruct o; simpl; try done.
  - destruct (get_item_frame t_get t_utc t_set id s) as (-> & _). done.
  - apply (Hframe _ _ (reserve_items_frame t_utc order_id items s)).
  - apply (Hframe _ _ (release_reservation_frame order_id s)).
  - destruct (adjust_inventory_frame t_utc id adjustment reason s) as [Hkeys _].
    split; [done|]. clear Hkeys. unfold adjust_inventory.
    destruct (dict_get id (inventory s)) as [item|] eqn:Hid; [|done].
    destruct (stock item + adjustment <? 0) eqn:Hneg; [done|]. simpl.
    intros id' it'. rewrite dict_get_set.
    destruct (decide (id' = id)); [|by apply Hs].
    intros [= <-]. simpl. lia.
Qed.

(** X7.  From the seeded catalog no sequence of ledger calls makes the
    stock of an item negative. *)
Lemma stock_nonneg_run (c : CacheManager.t ItemView) (os : list op) :
  Forall (λ p, 0 ≤ stock p.2) (inventory (run os (init c))).
Proof.
  assert (H : ∀ s,
            NoDup (inventory s).*1 →
            (∀ id it, dict_get id (inventory s) = Some it → 0 ≤ stock it) →
            NoDup (inventory (run os s)).*1 ∧
            ∀ id it, dict_get id (inventory (run os s)) = Some it → 0 ≤ stock it).
  { induction os as [|o os IH]; intros s Hnd Hs; [done|].
    destruct (stock_nonneg_step s o Hs) as [Hkeys Hs'].
    apply IH; [by rewrite Hkeys|done]. }
  destruct (ledger_ok_init c) as (Hnd & Hitems & _).
  destruct (H (init c) Hnd) as [Hnd' Hs'].
  { intros id it Hit. specialize (Hitems id it Hit).
    rewrite held_empty in Hitems. lia. }
  apply Forall_forall. intros [id it] Hin.
  apply (Hs' id). by apply dict_elem_get.
Qed.

(** * The cases of test_inventory.py, on the model *)

Example test_check_availability :
  check_availability 1001 40 seeded = true ∧
  check_availability 1001 50 seeded = false.
Proof. done. Qed.

Example test_reserve_items_success :
  let r := reserve_items 0 "order_001" [(1001, 5); (1002, 10)] seeded in
  r.1 = Return (Reserved "order_001" 2 [(1001, 5); (1002, 10)]) ∧
  match (get_item 1 1 1 1001 r.2).1 with
  | Return (Found item) => v_reserved item = 8 ∧ v_available item = 39
  | _ => False
  end.
Proof. by vm_compute. Qed.

Example test_reserve_insufficient_stock :
  reserve_items 0 "order_002" [(1001, 1000)] seeded
  = (Return (InsufficientInventory 1001 1000 44), seeded).
Proof. by vm_compute. Qed.

Example test_release_reservation :
  let s1 := (reserve_items 0 "order_004" [(1001, 5)] seeded).2 in
  let r := release_reservation "order_004" s1 in
  r.1 = Return (Released "order_004" 1) ∧
  reserved <$> dict_get 1001 (inventory s1) = Some 8 ∧
  reserved <$> dict_get 1001 (inventory r.2) = Some 3.
Proof. by vm_compute. Qed.

Example test_adjust_inventory :
  (adjust_inventory 0 1001 100 "Received shipment" seeded).1
  = Adjusted 1001 47 147 100 "Received shipment" ∧
  (adjust_inventory 0 1002 (-10) "Damaged items" seeded).1
  = Adjusted 1002 234 224 (-10) "Damaged items" ∧
  adjust_inventory 0 1001 (-10000) "Invalid adjustment" seeded
  = (NegativeStockViolation 1001 47 (-10000), seeded).
Proof. by vm_compute. Qed.

Example test_get_low_stock_items :
  (λ e, (ls_item_id e, ls_available e)) <$> get_low_stock_items 10 seeded
  = [(1009, 5); (1008, 7)].
Proof. by vm_compute. Qed.

Example test_get_item_cached :
  let r1 := get_item 0 0 0 1001 seeded in
  let s2 := (adjust_inventory 1 1001 100 "restock" r1.2).2 in
  let r3 := get_item 2 2 2 1001 s2 in
  (get_item 1 1 1 1001 r1.2).1 = r1.1 ∧
  match r3.1 with
  | Return (Found item) => v_stock item = 147 ∧ v_last_checked item = 2
  | _ => False
  end ∧
  (get_item 0 0 0 9999 seeded).1 = Return (ItemNotFound 9999).
Proof. by vm_compute. Qed.

Example test_cache_functionality :
  let c0 := CacheManager.init (V := string) in
  let c1 := (CacheManager.set 0 "test_key" "test_value" 60 c0).2 in
  let r2 := CacheManager.get 1 "test_key" c1 in
  let r3 := CacheManager.get 2 "nonexistent_key" r2.2 in
  let r4 := CacheManager.get 3 "test_key" (CacheManager.delete "test_key" r3.2) in
  r2.1 = Some "test_value" ∧ CacheManager.hits r2.2 = 1 ∧
  r3.1 = None ∧ CacheManager.misses r3.2 = 1 ∧
  r4.1 = None.
Proof. by vm_compute. Qed.

Example test_cache_expiry :
  let c1 := (CacheManager.set 0 "expiring_key" "value" 1 CacheManager.init).2 in
  (CacheManager.get 10 "expiring_key" c1).1 = Some "value" ∧
  (CacheManager.get 2000000 "expiring_key" c1).1 = None.
Proof. by vm_compute. Qed.

(** * The claims *)

(** C1, as the code has it.  From the seeded catalog (with any cache),
    after every sequence of ledger calls in which each reservation
    request names each item at most once with no negative quantity,
    and each adjustment is either refused or leaves the stock at or
    above the reserved units, every item satisfies
    [0 <= reserved <= stock]. *)
Theorem ledger_invariant_of_ok_runs (c : CacheManager.t ItemView) (os : list op) :
  run_ok os (init c) →
  Forall (λ p, item_ok p.2) (inventory (run os (init c))).
Proof.
  intros Hos. apply ledger_ok_items. apply ledger_ok_run; [done|].
  apply ledger_ok_init.
Qed.

(** A run that reserves, reads, adjusts down to the reserved units, has
    an adjustment and a reservation refused, and releases. *)
Lemma ledger_invariant_of_ok_runs_witness :
  let os :=
    [ ReserveItems 0 "O1" [(1001, 5); (1002, 10)];
      GetItem 1 1 1 1001;
      AdjustInventory 2 1001 (-39) "damaged";
      AdjustInventory 3 1002 (-10000) "mistake";
      ReserveItems 4 "O2" [(1001, 1)];
      ReleaseReservation "O1";
      GetLowStockItems 10 ] in
  run_ok os seeded ∧
  Forall (λ p, item_ok p.2) (inventory (run os seeded)).
Proof.
  intros os.
  assert (H : run_ok os seeded).
  { subst os. cbn -[Z.add Z.lt Z.le]. unfold request_ok, adjustment_ok.
    repeat split; try (apply (bool_decide_unpack _); by vm_compute);
      try (repeat constructor; simpl; lia). }
  split; [exact H|].
  exact (ledger_invariant_of_ok_runs CacheManager.init os H).
Defined.

(** C1 as stated fails: [adjust_inventory(1001, -46, ...)] on the seeded
    ledger is accepted and leaves item 1001 with stock 1 and reserved 3. *)
Lemma ledger_invariant_fails_after_adjustment :
  ¬ (∀ os : list op, Forall (λ p, item_ok p.2) (inventory (run os seeded))).
Proof.
  intros H. specialize (H [AdjustInventory 0 1001 (-46) "shrinkage"]).
  apply Forall_cons_1 in H as [H _]. unfold item_ok in H.
  vm_compute in H. destruct H as [_ H]. by apply H.
Qed.

(** C2 on a request that names an item twice.  On the seeded ledger,
    [reserve_items("O1", [(1001, 5), (1001, 5)])] succeeds, raises the
    reserved units of item 1001 from 3 to 13 and records 5 units for
    the order; [release_reservation("O1")] then gives back 5 and leaves
    8 reserved, not the 3 there were. *)
Theorem reserve_release_twice_named_item_leaks :
  let r1 := reserve_items 0 "O1" [(1001, 5); (1001, 5)] seeded in
  let r2 := release_reservation "O1" r1.2 in
  reservations seeded !! "O1" = None ∧
  reserved <$> dict_get 1001 (inventory seeded) = Some 3 ∧
  r1.1 = Return (Reserved "O1" 1 [(1001, 5)]) ∧
  reserved <$> dict_get 1001 (inventory r1.2) = Some 13 ∧
  r2.1 = Return (Released "O1" 1) ∧
  reserved <$> dict_get 1001 (inventory r2.2) = Some 8.
Proof. by vm_compute. Qed.

(** C3 on a request whose failing pair names an unknown item.  On the
    seeded ledger, [check_availability(9999, 1)] is false and
    [reserve_items("O1", [(9999, 1)])] raises [KeyError(9999)] instead
    of returning a result; the state is unchanged. *)
Theorem reserve_items_unknown_item_raises :
  reservations seeded !! "O1" = None ∧
  check_availability 9999 1 seeded = false ∧
  reserve_items 0 "O1" [(9999, 1)] seeded = (Raise (KeyError 9999), seeded).
Proof. by vm_compute. Qed.

(** C4.  When [order_id] already has a live reservation,
    [reserve_items] returns the duplicate-reservation failure and the
    whole state (catalog, reservations, adjustment log, cache) is the
    state it was called in, whatever the items. *)
Theorem reserve_items_duplicate_order t_utc order_id (items : list (Z * Z)) (s : t) :
  is_Some (reservations s !! order_id) →
  reserve_items t_utc order_id items s = (Return (DuplicateReservation order_id), s).
Proof. intros [r Hr]. unfold reserve_items. by rewrite Hr. Qed.

(** The second of two identical requests for one order. *)
Lemma reserve_items_duplicate_order_witness :
  let s := (reserve_items 0 "order_003" [(1001, 5)] seeded).2 in
  is_Some (reservations s !! "order_003") ∧
  reserve_items 1 "order_003" [(1001, 5)] s
  = (Return (DuplicateReservation "order_003"), s).
Proof.
  intros s.
  assert (H : is_Some (reservations s !! "order_003")) by (vm_compute; eauto).
  split; [exact H|].
  exact (reserve_items_duplicate_order 1 "order_003" [(1001, 5)] s H).
Defined.

(** C5.  [check_availability(id, quantity)] is false for an id that is
    not in the catalog and otherwise tells whether
    [stock - reserved >= quantity] on the item as the ledger holds it;
    on the seeded item 1001 (stock 47, reserved 3) it is true for 44
    and false for 45. *)
Theorem check_availability_spec (id quantity : Z) (s : t) :
  check_availability id quantity s
  = match dict_get id (inventory s) with
    | None => false
    | Some item => bool_decide (stock item - reserved item >= quantity)
    end
  ∧ (stock <$> dict_get 1001 (inventory seeded) = Some 47
     ∧ reserved <$> dict_get 1001 (inventory seeded) = Some 3
     ∧ check_availability 1001 44 seeded = true
     ∧ check_availability 1001 45 seeded = false).
Proof.
  split; [|done].
  unfold check_availability. destruct (dict_get id (inventory s)); [|done].
  destruct (stock i - reserved i >=? quantity) eqn:H.
  - symmetry. apply bool_decide_eq_true. lia.
  - symmetry. apply bool_decide_eq_false. lia.
Qed.


(** C7.  The list returned by [get_low_stock_items(threshold)] is in
    ascending order of [available]; it holds, up to order, exactly the
    entries of the catalog items whose [stock - reserved] is at most
    the threshold; so each of its entries has
    [available = stock - reserved <= threshold]. *)
Theorem get_low_stock_items_sorted (threshold : Z) (s : t) :
  let out := get_low_stock_items threshold s in
  StronglySorted (λ a b, ls_available a ≤ ls_available b) out ∧
  out ≡ₚ entry_of <$> filter (λ p, stock p.2 - reserved p.2 ≤ threshold) (inventory s) ∧
  Forall (λ e, ls_available e = ls_stock e - ls_reserved e ∧
               ls_available e ≤ threshold) out.
Proof.
  intros out. subst out. unfold get_low_stock_items.
  split; [apply sorted_sorted|].
  assert (Hperm : sorted ls_available (low_stock threshold (inventory s))
            ≡ₚ entry_of <$> filter (λ p, stock p.2 - reserved p.2 ≤ threshold)
                              (inventory s)).
  { rewrite sorted_perm. by rewrite low_stock_filter. }
  split; [exact Hperm|].
  rewrite Hperm. apply Forall_fmap. apply Forall_forall.
  intros [id item] Hin. apply list_elem_of_filter in Hin as [Hle _].
  simpl in *. split; [done|lia].
Qed.

(** C8, as the code has it.  Let [set(key, value, ttl)], made at time
    [t0], return, which it does when the expiry time [t0 + ttl] is a
    date the clock can show.  A [get] of [key] made no later than that
    expiry time, with in between only calls that keep the entry (calls
    on other keys, and [get]s of [key] made no later than the expiry
    time), returns [value] and adds one to the hit counter, nothing
    else changing.  A [get] of [key] made later than the expiry time,
    with in between any calls but a [set] of [key], returns nothing,
    leaves no entry of [key] in either table and adds one to the miss
    counter. *)
Theorem cache_get_after_set {V : Type} (c : CacheManager.t V)
    (t0 t1 ttl : Z) (key : string) (value : V) (os : list (CacheManager.op V)) :
  (CacheManager.set t0 key value ttl c).1 = Return () →
  let c1 := CacheManager.run os (CacheManager.set t0 key value ttl c).2 in
  (t1 ≤ t0 + ttl * 1000000 →
   Forall (CacheManager.keeps_entry key (t0 + ttl * 1000000)) os →
   CacheManager.get t1 key c1 =
     (Some value,
      {| CacheManager.cache := CacheManager.cache c1;
         CacheManager.expiry := CacheManager.expiry c1;
         CacheManager.hits := CacheManager.hits c1 + 1;
         CacheManager.misses := CacheManager.misses c1 |})) ∧
  (t1 > t0 + ttl * 1000000 →
   Forall (CacheManager.no_set key) os →
   CacheManager.get t1 key c1 =
     (None,
      {| CacheManager.cache := delete key (CacheManager.cache c1);
         CacheManager.expiry := delete key (CacheManager.expiry c1);
         CacheManager.hits := CacheManager.hits c1;
         CacheManager.misses := CacheManager.misses c1 + 1 |})).
Proof.
  intros Hret c1.
  assert (Hrange : CacheManager.expiry_in_range t0 ttl = true).
  { unfold CacheManager.set in Hret.
    by destruct (CacheManager.expiry_in_range t0 ttl). }
  destruct (cache_set_tables t0 key value ttl c) as (Hc0 & He0 & _).
  rewrite Hrange in He0.
  assert (Hc : CacheManager.cache (CacheManager.set t0 key value ttl c).2 !! key
               = Some value) by (rewrite Hc0; apply lookup_insert_eq).
  assert (He : CacheManager.expiry (CacheManager.set t0 key value ttl c).2 !! key
               = Some (t0 + ttl * 1000000)) by (rewrite He0; apply lookup_insert_eq).
  split.
  - intros Ht Hos.
    destruct (cache_entry_kept key value _ os _ Hos Hc He) as [Hc1 He1].
    fold c1 in Hc1, He1. unfold CacheManager.get. rewrite Hc1, He1.
    destruct (t1 >? t0 + ttl * 1000000) eqn:Hcmp; [lia|done].
  - intros Ht Hos.
    destruct (cache_entry_kept_or_gone key value (t0 + ttl * 1000000) os
                (CacheManager.set t0 key value ttl c).2 Hos (or_introl (conj Hc He)))
      as [[Hc1 He1]|[Hc1 He1]];
      fold c1 in Hc1, He1; unfold CacheManager.get; rewrite Hc1.
    + rewrite He1. destruct (t1 >? t0 + ttl * 1000000) eqn:Hcmp; [done|lia].
    + by rewrite !delete_id.
Qed.

(** An entry set at time 0 for one second: read again within the
    second after a call on another key and a hit, and read two seconds
    later after a hit. *)
Lemma cache_get_after_set_witness :
  let c0 := (CacheManager.set 0 "expiring_key" 7 1 CacheManager.init).2 in
  let os1 := [CacheManager.Set_ 2 "other" 2 1; CacheManager.Get 5 "expiring_key"] in
  let os2 := [CacheManager.Get 10 "expiring_key"] in
  (CacheManager.set 0 "expiring_key" 7 1 CacheManager.init).1 = Return () ∧
  CacheManager.get 1000000 "expiring_key" (CacheManager.run os1 c0) =
    (Some 7,
     {| CacheManager.cache := CacheManager.cache (CacheManager.run os1 c0);
        CacheManager.expiry := CacheManager.expiry (CacheManager.run os1 c0);
        CacheManager.hits := CacheManager.hits (CacheManager.run os1 c0) + 1;
        CacheManager.misses := CacheManager.misses (CacheManager.run os1 c0) |}) ∧
  CacheManager.get 2000000 "expiring_key" (CacheManager.run os2 c0) =
    (None,
     {| CacheManager.cache :=
          delete "expiring_key" (CacheManager.cache (CacheManager.run os2 c0));
        CacheManager.expiry :=
          delete "expiring_key" (CacheManager.expiry (CacheManager.run os2 c0));
        CacheManager.hits := CacheManager.hits (CacheManager.run os2 c0);
        CacheManager.misses := CacheManager.misses (CacheManager.run os2 c0) + 1 |}).
Proof.
  intros c0 os1 os2.
  assert (H : (CacheManager.set 0 "expiring_key" 7 1 CacheManager.init).1
              = Return ()) by reflexivity.
  split; [exact H|split].
  - apply (proj1 (cache_get_after_set CacheManager.init 0 1000000 1
                    "expiring_key" 7 os1 H)); [lia|].
    subst os1. apply Forall_cons_2; [simpl; discriminate|].
    apply Forall_cons_2; [simpl; right; lia|]. apply Forall_nil_2.
  - apply (proj2 (cache_get_after_set CacheManager.init 0 2000000 1
                    "expiring_key" 7 os2 H)); [lia|].
    subst os2. apply Forall_cons_2; [exact I|]. apply Forall_nil_2.
Defined.

(** C8 as stated fails for a time-to-live whose expiry time is out of
    range: [set('k', 7, -10**12)] stores the value and then raises
    [OverflowError] while computing the expiry time, so the value has
    no expiry time and a later [get('k')] returns it. *)
Lemma cache_get_after_failed_set_hits :
  ¬ (∀ (c : CacheManager.t Z) (t0 t1 ttl : Z) (key : string) (value : Z),
       t1 > t0 + ttl * 1000000 →
       (CacheManager.get t1 key (CacheManager.set t0 key value ttl c).2).1 = None).
Proof.
  intros H.
  specialize (H CacheManager.init 0 1 (-10 ^ 12) "k" 7 ltac:(lia)).
  vm_compute in H. discriminate H.
Qed.

(** C9, as the code has it.  Starting from a new cache, after every
    sequence of calls the two counters add up to the number of [get]
    calls made.  The reported hit rate is the int 0 when no [get] was
    made, and otherwise the float [round(hits / (hits + misses) * 100,
    2)]: the quotient and the product are binary64 operations, and the
    result is the binary64 number nearest to [n / 100], for [n] the
    integer nearest to 100 times the exact value of that product. *)
Theorem hit_rate_is_rounded_percentage {V : Type} (os : list (CacheManager.op V)) :
  let c := CacheManager.run os CacheManager.init in
  let hits := CacheManager.hits c in
  let misses := CacheManager.misses c in
  let reported := CacheManager.hit_rate (CacheManager.get_status c) in
  let percentage :=
    CacheManager.float_mul (CacheManager.true_div hits (hits + misses))
      (CacheManager.float_of_int 100) in
  let n := CacheManager.round_half_even (CacheManager.float_value percentage * 100) in
  0 ≤ hits ∧ 0 ≤ misses ∧ hits + misses = CacheManager.gets os ∧
  reported
  = (if CacheManager.gets os =? 0 then CacheManager.PyInt 0
     else CacheManager.PyFloat (CacheManager.round2 percentage)) ∧
  CacheManager.round2 percentage
  = match percentage with
    | S754_finite s _ _ =>
        if n =? 0 then S754_zero s else CacheManager.true_div n 100
    | _ => percentage
    end ∧
  (Qabs (inject_Z n - CacheManager.float_value percentage * 100) <= 1 # 2)%Q.
Proof.
  intros c hits misses reported percentage n.
  destruct (cache_counters_run os (CacheManager.init (V:=V))) as (Hh & Hm & Hsum).
  fold c in Hh, Hm, Hsum. fold hits in Hh, Hsum. fold misses in Hm, Hsum.
  simpl in Hh, Hm, Hsum.
  split; [lia|]. split; [lia|]. split; [lia|]. split; [|split].
  - unfold reported, CacheManager.get_status. cbn [CacheManager.hit_rate].
    fold hits misses. replace (CacheManager.gets os) with (hits + misses) by lia.
    destruct (hits + misses >? 0) eqn:Hpos, (hits + misses =? 0) eqn:Hz;
      try reflexivity; lia.
  - unfold CacheManager.round2. by destruct percentage.
  - apply round_half_even_near.
Qed.

(** C9 as stated fails: after one hit and one miss the reported hit
    rate is 50.0, not 1/2. *)
Lemma hit_rate_is_not_fraction :
  ¬ (∀ os : list (CacheManager.op Z),
       let c := CacheManager.run os CacheManager.init in
       (CacheManager.number_value (CacheManager.hit_rate (CacheManager.get_status c)) ==
        inject_Z (CacheManager.hits c)
        / inject_Z (CacheManager.hits c + CacheManager.misses c))%Q).
Proof.
  intros H.
  specialize (H [CacheManager.Set_ 0 "k" 1 60;
                 CacheManager.Get 1 "k"; CacheManager.Get 1 "absent"]).
  vm_compute in H. discriminate H.
Qed.

(** The hit rate after one hit and one miss is the float 50.0. *)
Example hit_rate_one_hit_one_miss :
  CacheManager.hit_rate
    (CacheManager.get_status
       (CacheManager.run [CacheManager.Set_ 0 "k" 1 60;
                          CacheManager.Get 1 "k"; CacheManager.Get 1 "absent"]
          CacheManager.init))
  = CacheManager.PyFloat (CacheManager.float_of_int 50).
Proof. by vm_compute. Qed.

(** After 23 hits and 137 misses the percentage computed in binary64 is
    14.374999999999998, below the exact 14.375, and the hit rate
    reported is the float 14.37. *)
Example hit_rate_23_hits_137_misses :
  let c := CacheManager.run
             (CacheManager.Set_ 0 "k" 1 60
              :: replicate 23 (CacheManager.Get 1 "k")
              ++ replicate 137 (CacheManager.Get 1 "absent"))
             CacheManager.init in
  CacheManager.hits c = 23 ∧ CacheManager.misses c = 137 ∧
  CacheManager.hit_rate (CacheManager.get_status c)
  = CacheManager.PyFloat (CacheManager.true_div 1437 100) ∧
  CacheManager.hit_rate (CacheManager.get_status c)
  ≠ CacheManager.PyFloat (CacheManager.true_div 1438 100).
Proof. by vm_compute. Qed.

(** C10.  Whatever the state and the arguments, and whether the call
    returns or raises: [reserve_items] and [release_reservation] leave
    the catalog with the same keys in the same order, change no field
    other than [reserved], and change no item other than those named in
    the request (for a release, in the live reservation of the order);
    [adjust_inventory] changes no field other than [stock] and no item
    other than the one it is called on. *)
Theorem mutations_frame t_utc order_id (items : list (Z * Z))
    (id adjustment : Z) (reason : string) (s : t) :
  frame same_but_reserved items.*1
    (inventory s) (inventory (reserve_items t_utc order_id items s).2) ∧
  frame same_but_reserved (named_by order_id s)
    (inventory s) (inventory (release_reservation order_id s).2) ∧
  frame same_but_stock [id]
    (inventory s) (inventory (adjust_inventory t_utc id adjustment reason s).2).
Proof.
  split; [apply reserve_items_frame|].
  split; [apply release_reservation_frame|apply adjust_inventory_frame].
Qed.

(** * Further properties of the cache *)

Section CacheLaws.
Context {V : Type}.
Implicit Types (c : CacheManager.t V) (os : list (CacheManager.op V)).

Lemma expiry_within_cache_step c o :
  (∀ key, is_Some (CacheManager.expiry c !! key) →
          is_Some (CacheManager.cache c !! key)) →
  ∀ key, is_Some (CacheManager.expiry (CacheManager.step c o) !! key) →
         is_Some (CacheManager.cache (CacheManager.step c o) !! key).
Proof.
  intros Hc. destruct o as [now k|now k v ttl|k|]; simpl.
  - unfold CacheManager.get.
    destruct (CacheManager.cache c !! k); [|done].
    destruct (CacheManager.expiry c !! k); [|done].
    destruct (now >? _); simpl; [|done].
    intros key. rewrite !lookup_delete. case_decide; [|by apply Hc].
    by intros [? ?].
  - destruct (cache_set_tables now k v ttl c) as (-> & -> & _).
    intros key. rewrite lookup_insert. case_decide; [eauto|].
    destruct (CacheManager.expiry_in_range now ttl).
    + rewrite lookup_insert, decide_False by done. apply Hc.
    + apply Hc.
  - unfold CacheManager.delete.
    destruct (CacheManager.cache c !! k) eqn:Hk; [|done]. simpl.
    intros key. destruct (CacheManager.expiry c !! k) eqn:Hek; simpl;
      rewrite ?lookup_delete; case_decide as Hkey; try by apply Hc.
    + by intros [? ?].
    + subst key. rewrite Hek. by intros [? ?].
  - intros key. rewrite !lookup_empty. by intros [? ?].
Qed.

Lemma tables_agree_step c o :
  CacheManager.set_returns o →
  CacheManager.tables_agree c → CacheManager.tables_agree (CacheManager.step c o).
Proof.
  unfold CacheManager.tables_agree. intros Ho Hc.
  destruct o as [now k|now k v ttl|k|]; simpl in *.
  - unfold CacheManager.get.
    destruct (CacheManager.cache c !! k); [|done].
    destruct (CacheManager.expiry c !! k); [|done].
    destruct (now >? _); simpl; [|done].
    intros key. rewrite !lookup_delete. case_decide; [|done].
    split; intros [? ?]; done.
  - destruct (cache_set_tables now k v ttl c) as (-> & -> & _). rewrite Ho.
    intros key. rewrite !lookup_insert. case_decide; [|done].
    split; eauto.
  - unfold CacheManager.delete.
    destruct (CacheManager.cache c !! k) eqn:Hk; [|done]. simpl.
    destruct (proj1 (Hc k)) as [e He]; [by rewrite Hk|]. rewrite He.
    intros key. rewrite !lookup_delete. case_decide; [|done].
    split; intros [? ?]; done.
  - intros key. rewrite !lookup_empty. split; intros [? ?]; done.
Qed.

(** X1.  Starting from a new cache, after every sequence of [get],
    [set], [delete] and [clear] calls every key that has an expiry time
    has a value; and when every [set] of the sequence returned, that
    is, none raised [OverflowError] on its expiry time, the value table
    and the expiry table have the same keys: no value without an expiry
    time, no expiry time left behind. *)
Theorem cache_tables_agree os :
  let c := CacheManager.run os CacheManager.init in
  (∀ key, is_Some (CacheManager.expiry c !! key) →
          is_Some (CacheManager.cache c !! key)) ∧
  (Forall CacheManager.set_returns os → CacheManager.tables_agree c).
Proof.
  split.
  - assert (H : ∀ c,
      (∀ key, is_Some (CacheManager.expiry c !! key) →
              is_Some (CacheManager.cache c !! key)) →
      ∀ key, is_Some (CacheManager.expiry (CacheManager.run os c) !! key) →
             is_Some (CacheManager.cache (CacheManager.run os c) !! key)).
    { induction os as [|o os IH]; intros c Hc; [done|].
      apply IH. by apply expiry_within_cache_step. }
    apply H. intros key. simpl. rewrite lookup_empty. by intros [? ?].
  - intros Hos.
    assert (H : ∀ c, CacheManager.tables_agree c →
                     CacheManager.tables_agree (CacheManager.run os c)).
    { induction Hos as [|o os Ho _ IH]; intros c Hc; [done|].
      apply IH. by apply tables_agree_step. }
    apply H. intros key. simpl. rewrite !lookup_empty.
    split; intros [? ?]; done.
Qed.

(** X3.  The last [set] of a key wins: a [set] that returns, made over
    an earlier [set] of the same key, returned or raised, or over a
    [delete] of it, gives the state the [set] alone gives, so the
    earlier value and expiry time leave no trace. *)
Theorem cache_set_last_write_wins t1 t2 key (v1 v2 : V) ttl1 ttl2 c :
  CacheManager.expiry_in_range t2 ttl2 = true →
  CacheManager.set t2 key v2 ttl2 (CacheManager.set t1 key v1 ttl1 c).2
  = CacheManager.set t2 key v2 ttl2 c ∧
  CacheManager.set t2 key v2 ttl2 (CacheManager.delete key c)
  = CacheManager.set t2 key v2 ttl2 c ∧
  (CacheManager.set t2 key v2 ttl2 c).1 = Return ().
Proof.
  intros Hrange. split; [|split].
  - unfold CacheManager.set. rewrite Hrange.
    destruct (CacheManager.expiry_in_range t1 ttl1); simpl;
      by rewrite ?insert_insert_eq.
  - unfold CacheManager.set, CacheManager.delete. rewrite Hrange.
    destruct (CacheManager.cache c !! key); [|done]. simpl.
    rewrite insert_delete_eq.
    destruct (CacheManager.expiry c !! key); [|done].
    by rewrite insert_delete_eq.
  - unfold CacheManager.set. by rewrite Hrange.
Qed.

(** X4.  [delete(key)] removes the key from the value table and touches
    neither the counters nor the expiry time of any other key; a second
    [delete] of the same key changes nothing, and a [get] after it
    misses at any time. *)
Theorem cache_delete_laws now key c :
  CacheManager.cache (CacheManager.delete key c)
  = delete key (CacheManager.cache c) ∧
  CacheManager.hits (CacheManager.delete key c) = CacheManager.hits c ∧
  CacheManager.misses (CacheManager.delete key c) = CacheManager.misses c ∧
  (∀ k, k ≠ key →
     CacheManager.expiry (CacheManager.delete key c) !! k
     = CacheManager.expiry c !! k) ∧
  CacheManager.delete key (CacheManager.delete key c) = CacheManager.delete key c ∧
  (CacheManager.get now key (CacheManager.delete key c)).1 = None.
Proof.
  destruct (cache_delete_tables key c) as (Hc & Hh & Hm & He).
  repeat split; try done.
  - unfold CacheManager.delete at 1. rewrite Hc. by rewrite lookup_delete_eq.
  - unfold CacheManager.get. rewrite Hc. by rewrite lookup_delete_eq.
Qed.

Lemma cache_size_step c o :
  (size (CacheManager.cache (CacheManager.step c o))
   ≤ size (CacheManager.cache c) + CacheManager.sets [o])%nat.
Proof.
  destruct o as [now k|now k v ttl|k|]; simpl.
  - unfold CacheManager.get.
    destruct (CacheManager.cache c !! k) eqn:Hk; simpl; [|lia].
    destruct (CacheManager.expiry c !! k); simpl; [|lia].
    destruct (now >? _); simpl; [|lia].
    rewrite map_size_delete, Hk. lia.
  - destruct (cache_set_tables now k v ttl c) as (-> & _).
    rewrite map_size_insert. destruct (CacheManager.cache c !! k); simpl; lia.
  - destruct (cache_delete_tables k c) as (-> & _).
    rewrite map_size_delete. destruct (CacheManager.cache c !! k); simpl; lia.
  - rewrite map_size_empty. lia.
Qed.

Lemma cache_sets_cons o os :
  CacheManager.sets (o :: os) = (CacheManager.sets [o] + CacheManager.sets os)%nat.
Proof. by destruct o. Qed.

(** X6.  Starting from a new cache, the number of entries reported by
    [get_status] never exceeds the number of [set] calls made. *)
Theorem cache_entries_bounded os :
  (CacheManager.entries
     (CacheManager.get_status (CacheManager.run os CacheManager.init))
   ≤ CacheManager.sets os)%nat.
Proof.
  assert (H : ∀ c, (size (CacheManager.cache (CacheManager.run os c))
                    ≤ size (CacheManager.cache c) + CacheManager.sets os)%nat).
  { induction os as [|o os IH]; intros c; [simpl; lia|].
    change (CacheManager.run (o :: os) c)
      with (CacheManager.run os (CacheManager.step c o)).
    rewrite cache_sets_cons.
    pose proof (IH (CacheManager.step c o)).
    pose proof (cache_size_step c o). lia. }
  specialize (H CacheManager.init). simpl in *.
  by rewrite map_size_empty in H.
Qed.

End CacheLaws.

(** * Further properties of insertion-ordered dictionaries *)

Section DictFill.
Context {K V : Type} `{EqDecision K}.
Implicit Types (k : K) (v : V) (d acc items : list (K * V)).

Lemma dict_get_app k d1 d2 :
  dict_get k (d1 ++ d2)
  = match dict_get k d1 with Some v => Some v | None => dict_get k d2 end.
Proof.
  induction d1 as [|[k0 v0] d1 IH]; simpl; [done|].
  by destruct (decide (k = k0)).
Qed.

Lemma dict_set_NoDup k v d : NoDup d.*1 → NoDup (dict_set k v d).*1.
Proof.
  intros Hnd. destruct (dict_get k d) as [v0|] eqn:Hk.
  - rewrite dict_set_keys; [done|]. by rewrite Hk.
  - apply dict_get_None in Hk. rewrite dict_set_fresh by done.
    rewrite fmap_app. apply NoDup_app. split; [done|]. split.
    + intros x Hx Hin. simpl in Hin. apply list_elem_of_singleton in Hin.
      by subst.
    + simpl. apply NoDup_singleton.
Qed.

Lemma dict_fill_get k acc items :
  dict_get k (foldl (λ a p, dict_set p.1 p.2 a) acc items)
  = match dict_get k (reverse items) with
    | Some v => Some v
    | None => dict_get k acc
    end.
Proof.
  revert acc. induction items as [|[k0 v0] items IH]; intros acc; [done|].
  simpl. rewrite IH. rewrite reverse_cons, dict_get_app. simpl.
  destruct (dict_get k (reverse items)); [done|].
  rewrite dict_get_set. by destruct (decide (k = k0)).
Qed.

Lemma dict_fill_NoDup acc items :
  NoDup acc.*1 → NoDup (foldl (λ a p, dict_set p.1 p.2 a) acc items).*1.
Proof.
  revert acc. induction items as [|[k0 v0] items IH]; intros acc Hnd; [done|].
  simpl. apply IH. by apply dict_set_NoDup.
Qed.

Lemma dict_get_is_Some k d : is_Some (dict_get k d) ↔ k ∈ d.*1.
Proof.
  destruct (dict_get k d) eqn:Hk.
  - split; [|eauto]. intros _.
    apply dict_get_elem in Hk. apply list_elem_of_fmap. by exists (k, v).
  - split; [by intros [? ?]|]. intros Hin. by apply dict_get_None in Hk.
Qed.

Lemma dict_fill_keys k items :
  k ∈ (foldl (λ a p, dict_set p.1 p.2 a) [] items).*1 ↔ k ∈ items.*1.
Proof.
  assert (Hrev : is_Some (dict_get k (reverse items)) ↔ k ∈ items.*1).
  { rewrite dict_get_is_Some. rewrite fmap_reverse. apply elem_of_reverse. }
  rewrite <- Hrev.
  rewrite <- (dict_get_is_Some k (foldl _ _ _)). rewrite dict_fill_get. simpl.
  destruct (dict_get k (reverse items)); split; eauto.
Qed.

End DictFill.

(** * Further properties of the ledger *)

(** ** The outcomes of [reserve_items] and [release_reservation] *)

Lemma validate_Some_not_reserved (items : list (Z * Z)) (s : t) res :
  validate items s = Some res →
  ∀ o n d, res ≠ Return (Reserved o n d).
Proof.
  induction items as [|[id q] items IH]; simpl; [done|].
  destruct (check_availability id q s); simpl; [done|].
  intros [= <-] o n d. by destruct (dict_get id (inventory s)).
Qed.

Lemma reserve_items_cases t_utc order_id (items : list (Z * Z)) (s : t) :
  (reservations s !! order_id = None ∧
   Forall (λ p, check_availability p.1 p.2 s = true) items) ∨
  ((reserve_items t_utc order_id items s).2 = s ∧
   (∀ o n d, (reserve_items t_utc order_id items s).1 ≠ Return (Reserved o n d)) ∧
   ¬ (reservations s !! order_id = None ∧
      Forall (λ p, check_availability p.1 p.2 s = true) items)).
Proof.
  destruct (reservations s !! order_id) as [r0|] eqn:Hfree.
  { right. unfold reserve_items. rewrite Hfree. simpl.
    split; [done|]. split; [done|]. by intros [? _]. }
  destruct (validate items s) as [res|] eqn:Hval.
  - right. unfold reserve_items. rewrite Hfree, Hval. simpl.
    split; [done|]. split; [by eapply validate_Some_not_reserved|].
    intros [_ Hpass]. apply validate_None in Hpass. congruence.
  - left. split; [done|]. by apply validate_None.
Qed.

Lemma reserve_items_log t_utc order_id (items : list (Z * Z)) (s : t) :
  adjustment_log (reserve_items t_utc order_id items s).2 = adjustment_log s.
Proof.
  destruct (reserve_items_cases t_utc order_id items s)
    as [[Hfree Hpass]|(-> & _)]; [|done].
  by destruct (reserve_items_commits t_utc order_id items s Hfree Hpass)
    as (_ & _ & ? & _).
Qed.

Lemma release_reservation_log order_id (s : t) :
  adjustment_log (release_reservation order_id s).2 = adjustment_log s.
Proof.
  unfold release_reservation.
  destruct (reservations s !! order_id) as [r|]; [|done].
  destruct (release_loop_spec (r_items r) s)
    as (_ & _ & _ & _ & _ & _ & Hlog & _).
  by destruct (release_loop (r_items r) s) as [[[]|e] s'].
Qed.

Lemma release_reservation_reservations order_id (s : t) :
  reservations (release_reservation order_id s).2 = reservations s ∨
  reservations (release_reservation order_id s).2
  = delete order_id (reservations s).
Proof.
  unfold release_reservation.
  destruct (reservations s !! order_id) as [r|]; [|by left].
  destruct (release_loop_spec (r_items r) s)
    as (_ & _ & _ & _ & _ & Hrs & _).
  destruct (release_loop (r_items r) s) as [[[]|e] s']; simpl in *.
  - right. by rewrite Hrs.
  - by left.
Qed.

(** ** The catalog *)

Lemma frame_identity (R : Item → Item → Prop) named (inv inv' : list (Z * Item)) :
  (∀ it it', R it it' →
     item_id it' = item_id it ∧ name it' = name it ∧ sku it' = sku it) →
  frame R named inv inv' →
  inv'.*1 = inv.*1 ∧
  ∀ id, (λ it, (item_id it, name it, sku it)) <$> dict_get id inv'
        = (λ it, (item_id it, name it, sku it)) <$> dict_get id inv.
Proof.
  intros HR [Hkeys Hget]. split; [done|]. intros id. specialize (Hget id).
  destruct (dict_get id inv) as [it|], (dict_get id inv') as [it'|]; try done.
  destruct Hget as [Hit _]. apply HR in Hit as (H1 & H2 & H3). simpl.
  by rewrite H1, H2, H3.
Qed.

Lemma step_identity (s : t) (o : op) :
  (inventory (step s o)).*1 = (inventory s).*1 ∧
  ∀ id, (λ it, (item_id it, name it, sku it)) <$> dict_get id (inventory (step s o))
        = (λ it, (item_id it, name it, sku it)) <$> dict_get id (inventory s).
Proof.
  destruct o; simpl; try done.
  - by destruct (get_item_frame t_get t_utc t_set id s) as (-> & _).
  - apply (frame_identity same_but_reserved items.*1);
      [|apply reserve_items_frame].
    by intros it it' (? & ? & ? & _).
  - apply (frame_identity same_but_reserved (named_by order_id s));
      [|apply release_reservation_frame].
    by intros it it' (? & ? & ? & _).
  - apply (frame_identity same_but_stock [id]);
      [|apply adjust_inventory_frame].
    by intros it it' (? & ? & ? & _).
Qed.

Lemma run_identity (os : list op) (s : t) :
  (inventory (run os s)).*1 = (inventory s).*1 ∧
  ∀ id, (λ it, (item_id it, name it, sku it)) <$> dict_get id (inventory (run os s))
        = (λ it, (item_id it, name it, sku it)) <$> dict_get id (inventory s).
Proof.
  revert s. induction os as [|o os IH]; intros s; [done|].
  change (run (o :: os) s) with (run os (step s o)).
  destruct (IH (step s o)) as [Hkeys Hid].
  destruct (step_identity s o) as [Hkeys' Hid'].
  split; [congruence|]. intros id. by rewrite Hid, Hid'.
Qed.

Lemma known_of_identity (inv inv' : list (Z * Item)) id :
  (λ it, (item_id it, name it, sku it)) <$> dict_get id inv'
  = (λ it, (item_id it, name it, sku it)) <$> dict_get id inv →
  is_Some (dict_get id inv) → is_Some (dict_get id inv').
Proof.
  intros Heq [it Hit]. rewrite Hit in Heq.
  destruct (dict_get id inv'); [eauto|done].
Qed.

(** X14.  From any state, no sequence of ledger calls adds an item to
    the catalog, removes one, reorders the catalog, or changes the
    [item_id], [name] or [sku] of an item. *)
Theorem catalog_is_immutable (os : list op) (s : t) :
  (inventory (run os s)).*1 = (inventory s).*1 ∧
  ∀ id, (λ it, (item_id it, name it, sku it)) <$> dict_get id (inventory (run os s))
        = (λ it, (item_id it, name it, sku it)) <$> dict_get id (inventory s).
Proof. apply run_identity. Qed.


(** X11.  What a successful [reserve_items] records and reports when
    the request may name an item more than once: [items_reserved] is
    the number of entries of the recorded map, the map has one entry
    for each item id of the request and no other, and the quantity it
    records for an id is that of the last pair naming it. *)
Theorem reservation_details_last_pair_wins t_utc order_id (items : list (Z * Z))
    (s : t) n details :
  (reserve_items t_utc order_id items s).1
  = Return (Reserved order_id n details) →
  n = length details ∧
  NoDup details.*1 ∧
  (∀ id, id ∈ details.*1 ↔ id ∈ items.*1) ∧
  (∀ id, dict_get id details = dict_get id (reverse items)) ∧
  reservations (reserve_items t_utc order_id items s).2 !! order_id
  = Some {| r_items := details; r_timestamp := t_utc |}.
Proof.
  intros Hres.
  destruct (reserve_items_cases t_utc order_id items s)
    as [[Hfree Hpass]|(_ & Hnot & _)]; [|by apply Hnot in Hres].
  destruct (reserve_items_commits t_utc order_id items s Hfree Hpass)
    as (Hres' & Hrs & _).
  rewrite Hres' in Hres. injection Hres as <- <-.
  split; [done|]. split.
  { apply dict_fill_NoDup. simpl. constructor. }
  split; [intros id; apply dict_fill_keys|]. split.
  - intros id. rewrite dict_fill_get. simpl.
    by destruct (dict_get id (reverse items)).
  - rewrite Hrs. apply lookup_insert_eq.
Qed.

Lemma reservation_details_last_pair_wins_witness :
  let r := reserve_items 0 "O1" [(1001, 5); (1002, 1); (1001, 7)] seeded in
  r.1 = Return (Reserved "O1" 2 [(1001, 7); (1002, 1)]) ∧
  (2%nat = length [(1001, 7); (1002, 1)] ∧
   NoDup [(1001, 7); (1002, 1)].*1 ∧
   (∀ id, id ∈ [(1001, 7); (1002, 1)].*1
          ↔ id ∈ [(1001, 5); (1002, 1); (1001, 7)].*1) ∧
   (∀ id, dict_get id [(1001, 7); (1002, 1)]
          = dict_get id (reverse [(1001, 5); (1002, 1); (1001, 7)])) ∧
   reservations r.2 !! "O1"
   = Some {| r_items := [(1001, 7); (1002, 1)]; r_timestamp := 0 |}).
Proof.
  intros r.
  assert (H : r.1 = Return (Reserved "O1" 2 [(1001, 7); (1002, 1)]))
    by (by vm_compute).
  split; [exact H|].
  exact (reservation_details_last_pair_wins 0 "O1"
           [(1001, 5); (1002, 1); (1001, 7)] seeded 2 _ H).
Defined.

(** ** Reservations only name catalog items *)

Lemma reservations_known_step (s : t) (o : op) :
  reservations_known s → reservations_known (step s o).
Proof.
  intros Hs.
  assert (Hkeep : ∀ s',
            (reservations s' = reservations s ∨
             ∃ o', reservations s' = delete o' (reservations s)) →
            (∀ id, is_Some (dict_get id (inventory s)) →
                   is_Some (dict_get id (inventory s'))) →
            reservations_known s').
  { intros s' Hrs Hinv o' r Hr.
    assert (reservations s !! o' = Some r) as Hr0.
    { destruct Hrs as [Hrs|[o'' Hrs]]; rewrite Hrs in Hr; [done|].
      by apply lookup_delete_Some in Hr as [_ ?]. }
    eapply Forall_impl; [apply (Hs o' r Hr0)|]. intros p. apply Hinv. }
  assert (Hid : ∀ id, is_Some (dict_get id (inventory s)) →
                      is_Some (dict_get id (inventory (step s o)))).
  { intros id. apply known_of_identity. apply step_identity. }
  destruct o; simpl in *; try done.
  - apply Hkeep; [|done]. left.
    by destruct (get_item_frame t_get t_utc t_set id s) as (_ & -> & _).
  - destruct (reserve_items_cases t_utc order_id items s)
      as [[Hfree Hpass]|(-> & _)]; [|done].
    destruct (reserve_items_commits t_utc order_id items s Hfree Hpass)
      as (_ & Hrs & _).
    intros o' r Hr. rewrite Hrs in Hr.
    destruct (decide (o' = order_id)) as [->|Hne].
    + rewrite lookup_insert_eq in Hr. injection Hr as <-. simpl.
      apply Forall_forall. intros [id q] Hin. simpl. apply Hid.
      assert (id ∈ items.*1) as Hitems.
      { apply dict_fill_keys. apply list_elem_of_fmap. by exists (id, q). }
      apply list_elem_of_fmap in Hitems as ([id' q'] & -> & Hin').
      rewrite Forall_forall in Hpass.
      apply (check_availability_known _ q'). apply (Hpass _ Hin').
    + rewrite lookup_insert_ne in Hr by done.
      eapply Forall_impl; [apply (Hs o' r Hr)|]. intros p. apply Hid.
  - apply Hkeep; [|done].
    destruct (release_reservation_reservations order_id s) as [->| ->]; eauto.
  - apply Hkeep; [|done]. left. unfold adjust_inventory.
    destruct (dict_get id (inventory s)); [|done].
    by destruct (stock i + adjustment <? 0).
Qed.

Lemma reservations_known_run (os : list op) (s : t) :
  reservations_known s → reservations_known (run os s).
Proof.
  revert s. induction os as [|o os IH]; intros s Hs; [done|].
  apply IH. by apply reservations_known_step.
Qed.

Lemma reservations_known_init c : reservations_known (init c).
Proof. intros o r Hr. simpl in Hr. by rewrite lookup_empty in Hr. Qed.

(** X12.  After every sequence of ledger calls from the seeded catalog,
    [release_reservation] returns a result for every order id: the
    count released when the order has a live reservation, the
    not-found result otherwise.  It never raises. *)
Theorem release_reservation_never_raises (c : CacheManager.t ItemView)
    (os : list op) order_id :
  let s := run os (init c) in
  (release_reservation order_id s).1
  = match reservations s !! order_id with
    | Some r => Return (Released order_id (length (r_items r)))
    | None => Return (ReservationNotFound order_id)
    end.
Proof.
  intros s.
  pose proof (reservations_known_run os (init c) (reservations_known_init c))
    as Hknown.
  fold s in Hknown.
  destruct (reservations s !! order_id) as [r|] eqn:Hr.
  - by destruct (release_reservation_commits order_id r s Hr (Hknown _ _ Hr))
      as (? & _).
  - unfold release_reservation. by rewrite Hr.
Qed.

(** X13.  When [release_reservation] has released an order, releasing
    the same order again returns the not-found result and changes
    nothing. *)
Theorem release_reservation_twice order_id n (s : t) :
  (release_reservation order_id s).1 = Return (Released order_id n) →
  release_reservation order_id (release_reservation order_id s).2
  = (Return (ReservationNotFound order_id), (release_reservation order_id s).2).
Proof.
  unfold release_reservation at 1 3 4.
  destruct (reservations s !! order_id) as [r|] eqn:Hr; [|done].
  destruct (release_loop (r_items r) s) as [[[]|e] s']; simpl; [|done].
  intros _. unfold release_reservation. simpl.
  by rewrite lookup_delete_eq.
Qed.

Lemma release_reservation_twice_witness :
  let s := (reserve_items 0 "order_004" [(1001, 5)] seeded).2 in
  (release_reservation "order_004" s).1 = Return (Released "order_004" 1) ∧
  release_reservation "order_004" (release_reservation "order_004" s).2
  = (Return (ReservationNotFound "order_004"),
     (release_reservation "order_004" s).2).
Proof.
  intros s.
  assert (H : (release_reservation "order_004" s).1
              = Return (Released "order_004" 1)) by (by vm_compute).
  split; [exact H|].
  exact (release_reservation_twice "order_004" 1 s H).
Defined.

(** ** The adjustment log *)

Lemma logged_app id (l1 l2 : list AdjustmentLogEntry) :
  logged id (l1 ++ l2) = logged id l1 + logged id l2.
Proof. induction l1 as [|e l1 IH]; simpl; [done|]. rewrite IH. lia. Qed.

Lemma frame_stock_unchanged named (inv inv' : list (Z * Item)) :
  frame same_but_reserved named inv inv' →
  ∀ id, stock <$> dict_get id inv' = (λ it, stock it + 0) <$> dict_get id inv.
Proof.
  intros [_ Hget] id. specialize (Hget id).
  destruct (dict_get id inv) as [it|], (dict_get id inv') as [it'|]; try done.
  destruct Hget as [(_ & _ & _ & Hst) _]. simpl. f_equal. lia.
Qed.

Lemma step_log (s : t) (o : op) :
  ∃ new,
    adjustment_log (step s o) = adjustment_log s ++ new ∧
    Forall (λ e, log_new_stock e = log_old_stock e + log_adjustment e ∧
                 0 ≤ log_new_stock e) new ∧
    ∀ id, stock <$> dict_get id (inventory (step s o))
          = (λ it, stock it + logged id new) <$> dict_get id (inventory s).
Proof.
  assert (Hnil : ∀ s',
            adjustment_log s' = adjustment_log s →
            (∀ id, stock <$> dict_get id (inventory s')
                   = (λ it, stock it + 0) <$> dict_get id (inventory s)) →
            ∃ new,
              adjustment_log s' = adjustment_log s ++ new ∧
              Forall (λ e, log_new_stock e = log_old_stock e + log_adjustment e ∧
                           0 ≤ log_new_stock e) new ∧
              ∀ id, stock <$> dict_get id (inventory s')
                    = (λ it, stock it + logged id new) <$> dict_get id (inventory s)).
  { intros s' Hlog Hst. exists []. by rewrite app_nil_r. }
  assert (Hsame : ∀ id, stock <$> dict_get id (inventory s)
                        = (λ it, stock it + 0) <$> dict_get id (inventory s)).
  { intros id. destruct (dict_get id (inventory s)); simpl; [|done].
    f_equal. lia. }
  destruct o; simpl.
  - destruct (get_item_frame t_get t_utc t_set id s) as (Hinv & _ & Hlog).
    apply Hnil; [done|]. by rewrite Hinv.
  - by apply Hnil.
  - apply Hnil; [apply reserve_items_log|].
    apply (frame_stock_unchanged items.*1), reserve_items_frame.
  - apply Hnil; [apply release_reservation_log|].
    apply (frame_stock_unchanged (named_by order_id s)),
      release_reservation_frame.
  - unfold adjust_inventory.
    destruct (dict_get id (inventory s)) as [item|] eqn:Hid; [|by apply Hnil].
    destruct (stock item + adjustment <? 0) eqn:Hneg; [by apply Hnil|].
    eexists. split; [reflexivity|]. split.
    { repeat constructor; simpl; lia. }
    intros id'. simpl. rewrite dict_get_set.
    destruct (decide (id' = id)) as [->|Hne].
    + rewrite Hid. simpl. rewrite decide_True by done. f_equal. lia.
    + rewrite decide_False by done.
      destruct (dict_get id' (inventory s)); simpl; [|done]. f_equal. lia.
  - by apply Hnil.
Qed.

Lemma run_log (os : list op) (s : t) :
  ∃ new,
    adjustment_log (run os s) = adjustment_log s ++ new ∧
    Forall (λ e, log_new_stock e = log_old_stock e + log_adjustment e ∧
                 0 ≤ log_new_stock e) new ∧
    ∀ id, stock <$> dict_get id (inventory (run os s))
          = (λ it, stock it + logged id new) <$> dict_get id (inventory s).
Proof.
  revert s. induction os as [|o os IH]; intros s.
  - exists []. rewrite app_nil_r. split; [done|]. split; [done|].
    intros id. simpl. destruct (dict_get id (inventory s)); simpl; [|done].
    f_equal. lia.
  - change (run (o :: os) s) with (run os (step s o)).
    destruct (step_log s o) as (new1 & Hlog1 & Hok1 & Hst1).
    destruct (IH (step s o)) as (new2 & Hlog2 & Hok2 & Hst2).
    exists (new1 ++ new2). split; [by rewrite Hlog2, Hlog1, app_assoc|].
    split; [by apply Forall_app|].
    intros id. rewrite Hst2.
    destruct (dict_get id (inventory (step s o))) as [it1|] eqn:H1;
      specialize (Hst1 id); rewrite H1 in Hst1;
      destruct (dict_get id (inventory s)) as [it|]; simpl in *; try done.
    injection Hst1 as Hst1. rewrite logged_app. f_equal. lia.
Qed.

(** X15.  The adjustment log is append-only: from any state, the log
    after a sequence of ledger calls starts with the log before it. *)
Theorem adjustment_log_append_only (os : list op) (s : t) :
  adjustment_log s `prefix_of` adjustment_log (run os s).
Proof. destruct (run_log os s) as (new & -> & _). by exists new. Qed.

(** X16.  After every sequence of ledger calls from the seeded catalog,
    the stock of each item is its seeded stock plus the sum of the
    adjustments the log holds for it, and every log entry has
    [new_stock = old_stock + adjustment >= 0]. *)
Theorem stock_is_seed_plus_logged (c : CacheManager.t ItemView) (os : list op) :
  let s := run os (init c) in
  (∀ id, stock <$> dict_get id (inventory s)
         = (λ it, stock it + logged id (adjustment_log s))
           <$> dict_get id initialize_inventory) ∧
  Forall (λ e, log_new_stock e = log_old_stock e + log_adjustment e ∧
               0 ≤ log_new_stock e) (adjustment_log s).
Proof.
  intros s. subst s.
  destruct (run_log os (init c)) as (new & Hlog & Hok & Hst).
  simpl in Hlog. rewrite Hlog. split; [|done]. apply Hst.
Qed.

(** ** Reserved units and live reservations *)






(** ** The cache never holds a stale view *)


Lemma cache_get_subset {V : Type} now key (c : CacheManager.t V) k v :
  CacheManager.cache (CacheManager.get now key c).2 !! k = Some v →
  CacheManager.cache c !! k = Some v.
Proof.
  unfold CacheManager.get.
  destruct (CacheManager.cache c !! key); [|done].
  destruct (CacheManager.expiry c !! key); [|done].
  destruct (now >? _); simpl; [|done].
  intros H. by apply lookup_delete_Some in H as [_ ?].
Qed.

Lemma cache_get_Some {V : Type} now key (c : CacheManager.t V) v :
  (CacheManager.get now key c).1 = Some v →
  CacheManager.cache c !! key = Some v.
Proof.
  unfold CacheManager.get.
  destruct (CacheManager.cache c !! key); [|done].
  destruct (CacheManager.expiry c !! key); [|done].
  by destruct (now >? _).
Qed.

Lemma coherent_ext (s s' : t) :
  cache s' = cache s → inventory s' = inventory s → coherent s → coherent s'.
Proof. unfold coherent. by intros -> ->. Qed.






(** X19.  Read-through caching of [get_item].  When the cache has no
    live entry for an item of the catalog, [get_item] builds the view
    from the ledger, stamps it with its clock reading and caches it
    for 60 seconds; it returns the view, unless the expiry time of the
    entry is not a date, in which case it raises [OverflowError].  After
    a first call that returned, a second [get_item] made no later than
    60 seconds after the view was cached returns that same view, first
    stamp included, and counts a cache hit; one made later builds a new
    view with its own stamp, and returns or raises as the first did.
    Neither call changes the catalog. *)
Theorem get_item_read_through (s : t) (id : Z) (it : Item)
    (t_get1 t_utc1 t_set1 t_get2 t_utc2 t_set2 : Z) :
  dict_get id (inventory s) = Some it →
  (CacheManager.get t_get1 (item_key id) (cache s)).1 = None →
  let view := λ stamp,
    {| v_item_id := item_id it; v_name := name it; v_stock := stock it;
       v_reserved := reserved it; v_sku := sku it;
       v_available := stock it - reserved it; v_last_checked := stamp |} in
  let r1 := get_item t_get1 t_utc1 t_set1 id s in
  let r2 := get_item t_get2 t_utc2 t_set2 id r1.2 in
  r1.1 = (if CacheManager.expiry_in_range t_set1 60
          then Return (Found (view t_utc1)) else Raise OverflowError) ∧
  (CacheManager.expiry_in_range t_set1 60 = true →
   r2.1 = (if t_get2 >? t_set1 + 60 * 1000000
           then if CacheManager.expiry_in_range t_set2 60
                then Return (Found (view t_utc2)) else Raise OverflowError
           else Return (Found (view t_utc1))) ∧
   CacheManager.hits (cache r2.2)
   = CacheManager.hits (cache r1.2)
     + (if t_get2 >? t_set1 + 60 * 1000000 then 0 else 1)) ∧
  inventory r2.2 = inventory s.
Proof.
  intros Hit Hmiss view r1 r2.
  assert (Hinv : inventory r2.2 = inventory s).
  { subst r2 r1.
    destruct (get_item_frame t_get2 t_utc2 t_set2 id
                (get_item t_get1 t_utc1 t_set1 id s).2) as (-> & _).
    by destruct (get_item_frame t_get1 t_utc1 t_set1 id s) as (-> & _). }
  destruct (CacheManager.get t_get1 (item_key id) (cache s))
    as [cached c1] eqn:Hget1.
  simpl in Hmiss. subst cached.
  assert (Hr1 : r1 = (let r := CacheManager.set t_set1 (item_key id)
                                 (view t_utc1) 60 c1 in
                      (match r.1 with
                       | Return _ => Return (Found (view t_utc1))
                       | Raise e => Raise e
                       end, with_cache r.2 s))).
  { subst r1. unfold get_item. rewrite Hget1, Hit. fold (view t_utc1).
    by destruct (CacheManager.set _ _ _ _ _) as [[[]|e] c']. }
  split; [|split; [|exact Hinv]].
  - rewrite Hr1. unfold CacheManager.set.
    by destruct (CacheManager.expiry_in_range t_set1 60).
  - intros Hrange. clear Hinv. subst r2. rewrite Hr1. clear Hr1 r1.
    unfold CacheManager.set at 1 2 3. rewrite Hrange. simpl.
    unfold get_item, CacheManager.get. simpl.
    rewrite !lookup_insert_eq.
    destruct (t_get2 >? t_set1 + 60 * 1000000); simpl; [|done].
    rewrite Hit. fold (view t_utc2). unfold CacheManager.set.
    destruct (CacheManager.expiry_in_range t_set2 60); simpl; split; try done; lia.
Qed.

Lemma get_item_read_through_witness :
  let it := {| item_id := 1001; name := "Laptop Pro 15" +:+ dquote;
               stock := 47; reserved := 3; sku := "LAP-PRO-15" |} in
  let view := λ stamp,
    {| v_item_id := item_id it; v_name := name it; v_stock := stock it;
       v_reserved := reserved it; v_sku := sku it;
       v_available := stock it - reserved it; v_last_checked := stamp |} in
  let r1 := get_item 10 11 12 1001 seeded in
  let r2 := get_item (12 + 60 * 1000000) 20 21 1001 r1.2 in
  dict_get 1001 (inventory seeded) = Some it ∧
  (CacheManager.get 10 (item_key 1001) (cache seeded)).1 = None ∧
  r1.1 = (if CacheManager.expiry_in_range 12 60
          then Return (Found (view 11)) else Raise OverflowError) ∧
  (CacheManager.expiry_in_range 12 60 = true →
   r2.1 = (if 12 + 60 * 1000000 >? 12 + 60 * 1000000
           then if CacheManager.expiry_in_range 21 60
                then Return (Found (view 20)) else Raise OverflowError
           else Return (Found (view 11))) ∧
   CacheManager.hits (cache r2.2)
   = CacheManager.hits (cache r1.2)
     + (if 12 + 60 * 1000000 >? 12 + 60 * 1000000 then 0 else 1)) ∧
  inventory r2.2 = inventory seeded.
Proof.
  intros it view r1 r2.
  assert (H1 : dict_get 1001 (inventory seeded) = Some it) by reflexivity.
  assert (H2 : (CacheManager.get 10 (item_key 1001) (cache seeded)).1 = None)
    by reflexivity.
  split; [exact H1|]. split; [exact H2|].
  exact (get_item_read_through seeded 1001 it 10 11 12
           (12 + 60 * 1000000) 20 21 H1 H2).
Defined.

(** ** A mutation drops the cached views of the items it touches *)

Lemma reserve_loop_cache_None (items details : list (Z * Z)) (s : t) key :
  CacheManager.cache (cache s) !! key = None →
  CacheManager.cache (cache (reserve_loop items details s).2) !! key = None.
Proof.
  revert details s. induction items as [|[id q] items IH]; intros details s Hk.
  - done.
  - simpl. destruct (dict_get id (inventory s)) as [item|]; [|done].
    apply IH. simpl.
    destruct (cache_delete_tables (item_key id) (cache s)) as (-> & _).
    apply lookup_delete_None. by right.
Qed.

Lemma reserve_loop_invalidates (items details : list (Z * Z)) (s : t) d id :
  (reserve_loop items details s).1 = Return d →
  id ∈ items.*1 →
  CacheManager.cache (cache (reserve_loop items details s).2) !! item_key id = None.
Proof.
  revert details s. induction items as [|[id0 q] items IH]; intros details s.
  - intros _ Hin. by apply elem_of_nil in Hin.
  - simpl. destruct (dict_get id0 (inventory s)) as [item|]; [|done].
    intros Hret Hin. apply elem_of_cons in Hin as [->|Hin]; [|by apply IH].
    apply reserve_loop_cache_None. simpl.
    destruct (cache_delete_tables (item_key id0) (cache s)) as (-> & _).
    apply lookup_delete_eq.
Qed.

(** X22.  In every state, once [reserve_items] has returned a
    reservation the cache holds no entry for any item named in the
    request, and once [release_reservation] has returned a release it
    holds none for any item of the released reservation. *)
Theorem reserve_release_invalidate t_utc order_id (items : list (Z * Z)) (s : t) :
  match (reserve_items t_utc order_id items s).1 with
  | Return (Reserved _ _ _) =>
      ∀ id, id ∈ items.*1 →
        CacheManager.cache (cache (reserve_items t_utc order_id items s).2)
          !! item_key id = None
  | _ => True
  end ∧
  match (release_reservation order_id s).1 with
  | Return (Released _ _) =>
      ∀ id, id ∈ named_by order_id s →
        CacheManager.cache (cache (release_reservation order_id s).2)
          !! item_key id = None
  | _ => True
  end.
Proof.
  split.
  - unfold reserve_items.
    destruct (reservations s !! order_id); [done|].
    destruct (validate items s) as [res|] eqn:Hval.
    { simpl. pose proof (validate_Some_not_reserved items s res Hval) as Hnot.
      destruct res as [[]|]; try done. by destruct (Hnot order_id0 items_reserved
                                                     reservation_details). }
    pose proof (reserve_loop_invalidates items [] s) as H.
    destruct (reserve_loop items [] s) as [[details|e] s']; simpl in *; [|done].
    intros id Hin. by apply (H details).
  - unfold release_reservation, named_by.
    destruct (reservations s !! order_id) as [r|]; [|done].
    rewrite (release_loop_reserve_loop (r_items r) []).
    pose proof (reserve_loop_invalidates
                  (prod_map (λ k, k) Z.opp <$> r_items r) [] s) as H.
    destruct (reserve_loop _ [] s) as [[details|e] s']; simpl in *; [|done].
    intros id Hin. apply (H details); [done|].
    rewrite <- list_fmap_compose.
    replace (fst ∘ prod_map (λ k : Z, k) Z.opp) with (@fst Z Z); [done|].
    done.
Qed.

(** * Further properties of [sorted] and of the low-stock report *)

Section SortedFilter.
Context {A : Type} (key : A → Z).
Context (P : A → Prop) `{!∀ x, Decision (P x)}.
Implicit Types (x : A) (l : list A).

Lemma Forall_filter_keep (Q : A → Prop) l : Forall Q l → Forall Q (filter P l).
Proof.
  rewrite !Forall_forall. intros HQ x Hx.
  apply list_elem_of_filter in Hx as [_ Hx]. by apply HQ.
Qed.

Lemma insert_by_front x l :
  Forall (λ z, key x ≤ key z) l → insert_by key x l = x :: l.
Proof.
  destruct 1 as [|z l Hz _]; simpl; [done|].
  destruct (key x <=? key z) eqn:Hxz; [done|lia].
Qed.

Lemma insert_by_filter_sorted x l :
  StronglySorted (λ a b, key a ≤ key b) l →
  filter P (insert_by key x l)
  = if decide (P x) then insert_by key x (filter P l) else filter P l.
Proof.
  induction 1 as [|y l Hl IH Hy]; simpl.
  - rewrite filter_cons. by destruct (decide (P x)).
  - destruct (key x <=? key y) eqn:Hxy.
    + rewrite filter_cons. destruct (decide (P x)); [|done].
      symmetry. apply insert_by_front.
      rewrite filter_cons. destruct (decide (P y)).
      * constructor; [lia|]. apply Forall_filter_keep.
        eapply Forall_impl; [exact Hy|]. intros z Hz. simpl in Hz. lia.
      * apply Forall_filter_keep.
        eapply Forall_impl; [exact Hy|]. intros z Hz. simpl in Hz. lia.
    + rewrite !filter_cons. rewrite IH.
      destruct (decide (P y)), (decide (P x)); try done.
      simpl. by rewrite Hxy.
Qed.

Lemma sorted_filter l : filter P (sorted key l) = sorted key (filter P l).
Proof.
  induction l as [|x l IH]; simpl; [done|].
  rewrite insert_by_filter_sorted by apply sorted_sorted.
  rewrite filter_cons, IH. by destruct (decide (P x)).
Qed.

End SortedFilter.

Lemma sorted_filter_prefix {A : Type} (key : A → Z) (bound : Z) (l : list A) :
  StronglySorted (λ a b, key a ≤ key b) l →
  filter (λ a, key a ≤ bound) l `prefix_of` l.
Proof.
  induction 1 as [|y l Hl IH Hy]; [done|].
  rewrite filter_cons. destruct (decide (key y ≤ bound)) as [Hle|Hgt].
  - by apply prefix_cons.
  - assert (filter (λ a, key a ≤ bound) l = []) as ->; [|apply prefix_nil].
    clear IH Hl. induction Hy as [|z l Hz _ IH]; [done|].
    rewrite filter_cons. rewrite decide_False by lia. done.
Qed.

Lemma low_stock_threshold (t1 t2 : Z) (inv : list (Z * Item)) :
  t1 ≤ t2 →
  filter (λ e, ls_available e ≤ t1) (low_stock t2 inv) = low_stock t1 inv.
Proof.
  intros Hle. induction inv as [|[id item] inv IH]; simpl; [done|].
  destruct (stock item - reserved item <=? t2) eqn:H2,
           (stock item - reserved item <=? t1) eqn:H1; try lia.
  - rewrite filter_cons. simpl. rewrite decide_True by lia. by rewrite IH.
  - rewrite filter_cons. simpl. rewrite decide_False by lia. done.
  - done.
Qed.

(** X20.  The low-stock report for a threshold is the report for any
    larger threshold cut down to the entries within the smaller one,
    and it is an initial segment of that larger report. *)
Theorem get_low_stock_items_threshold (t1 t2 : Z) (s : t) :
  t1 ≤ t2 →
  get_low_stock_items t1 s
  = filter (λ e, ls_available e ≤ t1) (get_low_stock_items t2 s) ∧
  get_low_stock_items t1 s `prefix_of` get_low_stock_items t2 s.
Proof.
  intros Hle.
  assert (Heq : get_low_stock_items t1 s
                = filter (λ e, ls_available e ≤ t1) (get_low_stock_items t2 s)).
  { unfold get_low_stock_items.
    rewrite (sorted_filter ls_available). by rewrite low_stock_threshold. }
  split; [done|]. rewrite Heq.
  apply sorted_filter_prefix. apply sorted_sorted.
Qed.

Lemma get_low_stock_items_threshold_witness :
  5 ≤ 10 ∧
  get_low_stock_items 5 seeded
  = filter (λ e, ls_available e ≤ 5) (get_low_stock_items 10 seeded) ∧
  get_low_stock_items 5 seeded `prefix_of` get_low_stock_items 10 seeded.
Proof.
  assert (H : 5 ≤ 10) by lia.
  split; [exact H|]. exact (get_low_stock_items_threshold 5 10 seeded H).
Defined.

(** X21.  In the low-stock report, the entries that have the same
    [available] appear in the order their items have in the catalog. *)
Theorem get_low_stock_items_ties (threshold k : Z) (s : t) :
  filter (λ e, ls_available e = k) (get_low_stock_items threshold s)
  = entry_of <$>
      filter (λ p, stock p.2 - reserved p.2 = k ∧
                   stock p.2 - reserved p.2 ≤ threshold) (inventory s).
Proof.
  unfold get_low_stock_items. rewrite sorted_stable, low_stock_filter.
  induction (inventory s) as [|[id item] inv IH]; [done|].
  rewrite !filter_cons. simpl.
  destruct (decide (stock item - reserved item ≤ threshold)).
  - rewrite fmap_cons, filter_cons. simpl.
    destruct (decide (stock item - reserved item = k)).
    + rewrite decide_True by done. rewrite fmap_cons. by rewrite IH.
    + rewrite decide_False by tauto. done.
  - rewrite decide_False by tauto. done.
Qed.

(** * Where a returned value comes from *)

Lemma cache_provenance {V : Type} (os : list (CacheManager.op V))
    (c : CacheManager.t V) key v :
  CacheManager.cache (CacheManager.run os c) !! key = Some v →
  (CacheManager.cache c !! key = Some v ∧
   CacheManager.expiry (CacheManager.run os c) !! key
   = CacheManager.expiry c !! key) ∨
  ∃ t0 ttl, CacheManager.Set_ t0 key v ttl ∈ os ∧
            (CacheManager.expiry_in_range t0 ttl = true →
             CacheManager.expiry (CacheManager.run os c) !! key
             = Some (t0 + ttl * 1000000)).
Proof.
  revert c. induction os as [|o os IH]; intros c Hv; [by left|].
  change (CacheManager.run (o :: os) c)
    with (CacheManager.run os (CacheManager.step c o)) in *.
  destruct (IH _ Hv) as [[Hc He]|(t0 & ttl & Hin & He)].
  2:{ right. exists t0, ttl. split; [|done]. apply elem_of_cons. by right. }
  rewrite He. clear IH Hv He.
  destruct o as [now k|now k v' ttl|k|]; simpl in *.
  - left. split; [by apply cache_get_subset in Hc|].
    unfold CacheManager.get in *.
    destruct (CacheManager.cache c !! k) eqn:Hk; [|done].
    destruct (CacheManager.expiry c !! k); [|done].
    destruct (now >? _); simpl in *; [|done].
    apply lookup_delete_Some in Hc as [Hne _]. by rewrite lookup_delete_ne.
  - destruct (decide (k = key)) as [->|Hne].
    + destruct (cache_set_tables now key v' ttl c) as (Hcs & Hes & _).
      rewrite Hcs, lookup_insert_eq in Hc. injection Hc as ->.
      right. exists now, ttl. split; [apply elem_of_cons; by left|].
      intros Hrange. rewrite Hes, Hrange. apply lookup_insert_eq.
    + destruct (cache_set_other now k v' ttl c key) as [Hcs Hes]; [done|].
      rewrite Hcs in Hc. left. by rewrite Hes.
  - destruct (cache_delete_tables k c) as (Hd & _ & _ & Hexp).
    rewrite Hd in Hc. apply lookup_delete_Some in Hc as [Hne Hc].
    left. split; [done|]. apply Hexp. by intros ->.
  - by rewrite lookup_empty in Hc.
Qed.

Lemma cache_get_not_expired {V : Type} now key (c : CacheManager.t V) v e :
  (CacheManager.get now key c).1 = Some v →
  CacheManager.expiry c !! key = Some e → now ≤ e.
Proof.
  unfold CacheManager.get. intros Hget He. rewrite He in Hget.
  destruct (CacheManager.cache c !! key); [|done].
  destruct (now >? e) eqn:Hcmp; [done|lia].
Qed.

(** X2.  Starting from a new cache, a [get] returns a value only if
    one of the calls made before it is a [set] of that key with that
    value, and, when that [set] returned, the [get] is made no later
    than that [set]'s time plus its time-to-live.  (A [set] that raised
    [OverflowError] on its expiry time has stored its value all the
    same.) *)
Theorem cache_get_provenance {V : Type} (os : list (CacheManager.op V))
    now key (v : V) :
  (CacheManager.get now key (CacheManager.run os CacheManager.init)).1 = Some v →
  ∃ t0 ttl, CacheManager.Set_ t0 key v ttl ∈ os ∧
            (CacheManager.expiry_in_range t0 ttl = true →
             now ≤ t0 + ttl * 1000000).
Proof.
  intros Hget.
  pose proof (cache_get_Some now key _ v Hget) as Hc.
  destruct (cache_provenance os CacheManager.init key v Hc)
    as [[Hc0 _]|(t0 & ttl & Hin & He)].
  - simpl in Hc0. by rewrite lookup_empty in Hc0.
  - exists t0, ttl. split; [done|]. intros Hrange.
    by apply (cache_get_not_expired now key _ v _ Hget), He.
Qed.

Lemma cache_get_provenance_witness :
  let os := [CacheManager.Set_ 0 "k" 1 60; CacheManager.Set_ 5 "k" 2 10;
             CacheManager.Get 6 "j"] in
  (CacheManager.get 7 "k" (CacheManager.run os CacheManager.init)).1 = Some 2 ∧
  ∃ t0 ttl, CacheManager.Set_ t0 "k" 2 ttl ∈ os ∧
            (CacheManager.expiry_in_range t0 ttl = true →
             7 ≤ t0 + ttl * 1000000).
Proof.
  intros os.
  assert (H : (CacheManager.get 7 "k"
                 (CacheManager.run os CacheManager.init)).1 = Some 2)
    by reflexivity.
  split; [exact H|].
  exact (cache_get_provenance os 7 "k" 2 H).
Defined.

(** * A key stays absent until it is set again *)

Lemma cache_absent_step {V : Type} key (c : CacheManager.t V) o :
  match o with CacheManager.Set_ _ k _ _ => k ≠ key | _ => True end →
  CacheManager.cache c !! key = None →
  CacheManager.cache (CacheManager.step c o) !! key = None.
Proof.
  destruct o as [now k|now k v ttl|k|]; simpl; intros Ho Hk.
  - destruct (CacheManager.cache (CacheManager.get now k c).2 !! key)
      as [v|] eqn:Hv; [|done].
    apply cache_get_subset in Hv. congruence.
  - by destruct (cache_set_other now k v ttl c key) as [-> _].
  - destruct (cache_delete_tables k c) as (-> & _).
    apply lookup_delete_None. by right.
  - apply lookup_empty.
Qed.

(** X23.  After [delete(key)] or [clear()], and as long as no [set] of
    that key is made, every [get] of the key misses, whatever other
    calls are made in between and whatever the clock says. *)
Theorem cache_absent_until_set {V : Type} key (c : CacheManager.t V)
    (os : list (CacheManager.op V)) now :
  Forall (λ o, match o with CacheManager.Set_ _ k _ _ => k ≠ key | _ => True end) os →
  (CacheManager.get now key (CacheManager.run os (CacheManager.delete key c))).1 = None ∧
  (CacheManager.get now key (CacheManager.run os (CacheManager.clear c))).1 = None.
Proof.
  intros Hos.
  assert (H : ∀ c0, CacheManager.cache c0 !! key = None →
                    (CacheManager.get now key (CacheManager.run os c0)).1 = None).
  { intros c0 Hc0.
    assert (CacheManager.cache (CacheManager.run os c0) !! key = None) as Hk.
    { revert c0 Hc0. induction Hos as [|o os Ho _ IH]; intros c0 Hc0; [done|].
      apply (IH (CacheManager.step c0 o)). by apply cache_absent_step. }
    unfold CacheManager.get. by rewrite Hk. }
  split; apply H.
  - destruct (cache_delete_tables key c) as (-> & _). apply lookup_delete_eq.
  - apply lookup_empty.
Qed.

Lemma cache_absent_until_set_witness :
  let os := [CacheManager.Get 1 "k"; CacheManager.Set_ 2 "j" 5 60;
             CacheManager.Delete "j"; CacheManager.Get 3 "k"] in
  let c := (CacheManager.set 0 "k" 7 60 CacheManager.init).2 in
  Forall (λ o, match o with CacheManager.Set_ _ k _ _ => k ≠ "k" | _ => True end) os ∧
  (CacheManager.get 4 "k" (CacheManager.run os (CacheManager.delete "k" c))).1 = None ∧
  (CacheManager.get 4 "k" (CacheManager.run os (CacheManager.clear c))).1 = None.
Proof.
  intros os c.
  assert (H : Forall (λ o : CacheManager.op Z,
                        match o with
                        | CacheManager.Set_ _ k _ _ => k ≠ "k"
                        | _ => True
                        end) os)
    by (repeat constructor; discriminate).
  split; [exact H|].
  exact (cache_absent_until_set "k" c os 4 H).
Defined.

(** * The empty request *)

(** X24.  In every state, [reserve_items] with an empty list for an
    order with no live reservation succeeds: it reports zero items,
    leaves the catalog, the cache and the log untouched, and records an
    empty reservation, so that a further request for the same order is
    refused as a duplicate until the order is released. *)
Theorem reserve_items_empty_request t_utc t_utc' order_id (items : list (Z * Z))
    (s : t) :
  reservations s !! order_id = None →
  let r := reserve_items t_utc order_id [] s in
  r.1 = Return (Reserved order_id 0 []) ∧
  inventory r.2 = inventory s ∧ cache r.2 = cache s ∧
  adjustment_log r.2 = adjustment_log s ∧
  reservations r.2
  = <[order_id := {| r_items := []; r_timestamp := t_utc |}]> (reservations s) ∧
  reserve_items t_utc' order_id items r.2
  = (Return (DuplicateReservation order_id), r.2) ∧
  (release_reservation order_id r.2).1 = Return (Released order_id 0) ∧
  reservations (release_reservation order_id r.2).2 = reservations s.
Proof.
  intros Hfree r.
  assert (Hr : r = (Return (Reserved order_id 0 []),
                    with_reservations
                      (<[order_id := {| r_items := []; r_timestamp := t_utc |}]>
                         (reservations s)) s)).
  { subst r. unfold reserve_items. by rewrite Hfree. }
  rewrite Hr. clear Hr r. simpl. repeat split.
  - unfold reserve_items. simpl. by rewrite lookup_insert_eq.
  - unfold release_reservation. simpl. by rewrite lookup_insert_eq.
  - unfold release_reservation. simpl. rewrite lookup_insert_eq. simpl.
    by apply delete_insert_id.
Qed.

Lemma reserve_items_empty_request_witness :
  let r := reserve_items 0 "O1" [] seeded in
  reservations seeded !! "O1" = None ∧
  r.1 = Return (Reserved "O1" 0 []) ∧
  inventory r.2 = inventory seeded ∧ cache r.2 = cache seeded ∧
  adjustment_log r.2 = adjustment_log seeded ∧
  reservations r.2
  = <["O1" := {| r_items := []; r_timestamp := 0 |}]> (reservations seeded) ∧
  reserve_items 1 "O1" [(1001, 1)] r.2
  = (Return (DuplicateReservation "O1"), r.2) ∧
  (release_reservation "O1" r.2).1 = Return (Released "O1" 0) ∧
  reservations (release_reservation "O1" r.2).2 = reservations seeded.
Proof.
  intros r.
  assert (H : reservations seeded !! "O1" = None) by reflexivity.
  split; [exact H|].
  exact (reserve_items_empty_request 0 1 "O1" [(1001, 1)] seeded H).
Defined.

(** * Instances of the statements above *)

(** A [set] over a [set] that raised, and over a [delete]. *)
Lemma cache_set_last_write_wins_witness :
  let c := (CacheManager.set 0 "j" 3 60 CacheManager.init).2 in
  CacheManager.expiry_in_range 5 10 = true ∧
  CacheManager.set 5 "k" 2 10 (CacheManager.set 0 "k" 1 (-10 ^ 12) c).2
  = CacheManager.set 5 "k" 2 10 c ∧
  CacheManager.set 5 "k" 2 10 (CacheManager.delete "k" c)
  = CacheManager.set 5 "k" 2 10 c ∧
  (CacheManager.set 5 "k" 2 10 c).1 = Return ().
Proof.
  intros c.
  assert (H : CacheManager.expiry_in_range 5 10 = true) by reflexivity.
  split; [exact H|].
  exact (cache_set_last_write_wins 0 5 "k" 1 2 (-10 ^ 12) 10 c H).
Defined.


